(** * recon-engine: the pipeline orchestrator of cmd/recon-engine/main.go

    A shallow embedding of the richer orchestrator variant (the one with
    the -deep and -fingerprint toggles): pre-flight validation, the
    discovery goroutines and their fan-in over the [subdomains] channel,
    the dedup feeder of httpx, the join with the Amass infrastructure map
    and the inline WhatWeb enrichment.

    External collaborators (exec, bufio, encoding/json, time, the
    scheduler) are modelled by their interface: process outcomes and
    clock readings come from an environment record, bufio.Scanner is the
    cut of a tool's output into lines with its limit on their length,
    encoding/json is a small parser and struct decoder, and goroutines
    are threads of a labelled transition system whose labels name the
    thread that moves or the tool that exits. *)

From Stdlib Require Import ZArith Lia Ascii.
From stdpp Require Import base option list strings gmap fin_maps sets pretty sorting.

Set Warnings "-register-all,-clear-no-such-hyp".

(** ** encoding/json, as far as the program uses it

    The texts are taken as valid UTF-8 (Go replaces other bytes by
    U+FFFD) and keys are matched to fields up to ASCII case (Go also
    folds the Kelvin sign and the long s). When a key occurs twice in
    one object, the later value is decoded into what the earlier one
    left: a later array into the elements of the earlier slice, index by
    index. A slice is its elements; the spare capacity Go keeps behind
    them, which only a third array for the same key could bring back, is
    not part of the model. *)

Module Json.

Inductive value :=
| Null
| Bool (b : bool)
| Num (lit : string)
| Str (s : string)
| Arr (l : list value)
| Obj (l : list (string * value)).

Definition is_ws (c : ascii) : bool :=
  match c with
  | " "%char | "009"%char | "010"%char | "013"%char => true
  | _ => false
  end.

Fixpoint skip_ws (s : string) : string :=
  match s with
  | String c r => if is_ws c then skip_ws r else s
  | EmptyString => s
  end.

Definition is_digit (c : ascii) : bool :=
  let n := N_of_ascii c in (48 <=? n)%N && (n <=? 57)%N.

Fixpoint span_digits (s : string) : string * string :=
  match s with
  | String c r =>
      if is_digit c then let '(d, r') := span_digits r in (String c d, r')
      else (EmptyString, s)
  | EmptyString => (EmptyString, EmptyString)
  end.

(** The grammar of a number literal: an optional minus sign, an
    integer part (a single 0, or digits that do not start with 0), an
    optional fraction (a dot and digits) and an optional exponent
    (e or E, an optional sign, digits). *)
Definition scan_int (s : string) : option (string * string) :=
  match s with
  | String "0" r => Some ("0", r)
  | _ => match span_digits s with
         | (EmptyString, _) => None
         | (d, r) => Some (d, r)
         end
  end.

Definition scan_frac (s : string) : option (string * string) :=
  match s with
  | String "." r =>
      match span_digits r with
      | (EmptyString, _) => None
      | (d, r') => Some (String "." d, r')
      end
  | _ => Some (EmptyString, s)
  end.

Definition scan_exp (s : string) : option (string * string) :=
  match s with
  | String c r =>
      if bool_decide (c = "e"%char) || bool_decide (c = "E"%char) then
        let '(sign, r1) :=
          match r with
          | String "+" r1 => ("+", r1)
          | String "-" r1 => ("-", r1)
          | _ => (EmptyString, r)
          end in
        match span_digits r1 with
        | (EmptyString, _) => None
        | (d, r2) => Some (String c (sign +:+ d), r2)
        end
      else Some (EmptyString, s)
  | EmptyString => Some (EmptyString, s)
  end.

Definition scan_number (s : string) : option (string * string) :=
  let '(sign, s1) :=
    match s with String "-" r => ("-", r) | _ => (EmptyString, s) end in
  '(i, s2) ← scan_int s1;
  '(f, s3) ← scan_frac s2;
  '(e, s4) ← scan_exp s3;
  Some (sign +:+ i +:+ f +:+ e, s4).

Definition hex_digit (c : ascii) : option N :=
  let n := N_of_ascii c in
  if (48 <=? n)%N && (n <=? 57)%N then Some (n - 48)%N
  else if (97 <=? n)%N && (n <=? 102)%N then Some (n - 87)%N
  else if (65 <=? n)%N && (n <=? 70)%N then Some (n - 55)%N
  else None.

Definition hex4 (a b c d : ascii) : option N :=
  x ← hex_digit a; y ← hex_digit b; z ← hex_digit c; w ← hex_digit d;
  Some (x * 4096 + y * 256 + z * 16 + w)%N.

(** UTF-8 encoding of a code point, as utf8.AppendRune does it. *)
Definition utf8 (cp : N) : string :=
  let byte n := String (ascii_of_N n) EmptyString in
  if (cp <? 128)%N then byte cp
  else if (cp <? 2048)%N then
    byte (192 + cp / 64)%N +:+ byte (128 + cp mod 64)%N
  else if (cp <? 65536)%N then
    byte (224 + cp / 4096)%N +:+ byte (128 + (cp / 64) mod 64)%N
      +:+ byte (128 + cp mod 64)%N
  else
    byte (240 + cp / 262144)%N +:+ byte (128 + (cp / 4096) mod 64)%N
      +:+ byte (128 + (cp / 64) mod 64)%N +:+ byte (128 + cp mod 64)%N.

Definition replacement_char : N := 65533.

Definition is_high_surrogate (n : N) : bool := (55296 <=? n)%N && (n <? 56320)%N.
Definition is_low_surrogate (n : N) : bool := (56320 <=? n)%N && (n <? 57344)%N.

(** The body of a string literal, after the opening quote: the decoded
    text and what follows the closing quote. A \u escape of a lone
    surrogate decodes to U+FFFD, a surrogate pair to one code point. *)
Fixpoint scan_string (s : string) : option (string * string) :=
  match s with
  | EmptyString => None
  | String "034" r => Some (EmptyString, r)
  | String "\" (String e r) =>
      let simple (c : ascii) :=
        '(t, r') ← scan_string r; Some (String c t, r') in
      match e with
      | "034"%char => simple "034"%char
      | "\"%char => simple "\"%char
      | "/"%char => simple "/"%char
      | "b"%char => simple "008"%char
      | "f"%char => simple "012"%char
      | "n"%char => simple "010"%char
      | "r"%char => simple "013"%char
      | "t"%char => simple "009"%char
      | "u"%char =>
          match r with
          | String a (String b (String c (String d r1))) =>
              hi ← hex4 a b c d;
              if is_high_surrogate hi then
                match r1 with
                | String "\" (String "u" (String a' (String b' (String c' (String d' r2))))) =>
                    match hex4 a' b' c' d' with
                    | Some lo =>
                        if is_low_surrogate lo then
                          '(t, r') ← scan_string r2;
                          Some (utf8 (65536 + (hi - 55296) * 1024 + (lo - 56320))%N +:+ t, r')
                        else
                          '(t, r') ← scan_string r1;
                          Some (utf8 replacement_char +:+ t, r')
                    | None => None
                    end
                | _ =>
                    '(t, r') ← scan_string r1;
                    Some (utf8 replacement_char +:+ t, r')
                end
              else if is_low_surrogate hi then
                '(t, r') ← scan_string r1;
                Some (utf8 replacement_char +:+ t, r')
              else
                '(t, r') ← scan_string r1;
                Some (utf8 hi +:+ t, r')
          | _ => None
          end
      | _ => None
      end
  | String "\" EmptyString => None
  | String c r =>
      if (N_of_ascii c <? 32)%N then None
      else '(t, r') ← scan_string r; Some (String c t, r')
  end.

Definition scan_literal (lit : string) (v : value) (s : string)
  : option (value * string) :=
  if String.prefix lit s
  then Some (v, String.substring (String.length lit)
                  (String.length s - String.length lit) s)
  else None.

(** Recursive descent over the text. Every call consumes a character of
    it, so [fuel] bounds the characters read; [parse] below gives one
    more than the length of the text. *)
Fixpoint scan_value (fuel : nat) (s : string) : option (value * string) :=
  match fuel with
  | O => None
  | S n =>
      match skip_ws s with
      | String "{" r =>
          match skip_ws r with
          | String "}" r' => Some (Obj [], r')
          | _ => '(ms, r') ← scan_members n r; Some (Obj ms, r')
          end
      | String "[" r =>
          match skip_ws r with
          | String "]" r' => Some (Arr [], r')
          | _ => '(vs, r') ← scan_elements n r; Some (Arr vs, r')
          end
      | String "034" r => '(t, r') ← scan_string r; Some (Str t, r')
      | String "t" _ => scan_literal "true" (Bool true) (skip_ws s)
      | String "f" _ => scan_literal "false" (Bool false) (skip_ws s)
      | String "n" _ => scan_literal "null" Null (skip_ws s)
      | s' => '(lit, r) ← scan_number s'; Some (Num lit, r)
      end
  end
with scan_elements (fuel : nat) (s : string) : option (list value * string) :=
  match fuel with
  | O => None
  | S n =>
      '(v, r) ← scan_value n s;
      match skip_ws r with
      | String "," r' => '(vs, r'') ← scan_elements n r'; Some (v :: vs, r'')
      | String "]" r' => Some ([v], r')
      | _ => None
      end
  end
with scan_members (fuel : nat) (s : string)
  : option (list (string * value) * string) :=
  match fuel with
  | O => None
  | S n =>
      match skip_ws s with
      | String "034" r =>
          '(k, r1) ← scan_string r;
          match skip_ws r1 with
          | String ":" r2 =>
              '(v, r3) ← scan_value n r2;
              match skip_ws r3 with
              | String "," r4 =>
                  '(ms, r5) ← scan_members n r4; Some ((k, v) :: ms, r5)
              | String "}" r4 => Some ([(k, v)], r4)
              | _ => None
              end
          | _ => None
          end
      | _ => None
      end
  end.

(** The syntax check of json.Unmarshal: one value, then only white
    space. [None] is a SyntaxError. *)
Definition parse (s : string) : option value :=
  '(v, r) ← scan_value (S (String.length s)) s;
  match skip_ws r with
  | EmptyString => Some v
  | _ => None
  end.

(** *** Decoding into Go values

    Every decoder takes the current Go value and returns the new one;
    [None] is an UnmarshalTypeError, which Unmarshal reports after it
    has walked the whole text. A JSON null leaves the Go value as it
    is, except for a slice or map, which it sets to nil. *)

Definition digits_to_Z (s : string) : option Z :=
  let fix go (s : string) (acc : Z) : option Z :=
    match s with
    | EmptyString => Some acc
    | String c r =>
        if is_digit c then go r (10 * acc + Z.of_N (N_of_ascii c) - 48)%Z
        else None
    end in
  match s with EmptyString => None | _ => go s 0%Z end.

(** strconv.ParseInt(lit, 10, 64) on a literal of the JSON grammar. *)
Definition parse_int64 (lit : string) : option Z :=
  z ← match lit with
      | String "-" r => Z.opp <$> digits_to_Z r
      | _ => digits_to_Z lit
      end;
  if ((- 2 ^ 63 <=? z) && (z <? 2 ^ 63))%Z then Some z else None.

Definition to_string (old : string) (v : value) : option string :=
  match v with
  | Str s => Some s
  | Null => Some old
  | _ => None
  end.

Definition to_int (old : Z) (v : value) : option Z :=
  match v with
  | Num lit => parse_int64 lit
  | Null => Some old
  | _ => None
  end.

(** An array into a slice: the element at each index is decoded into
    the element the slice already has there, or into a zero element past
    its length; the slice ends up as long as the array. *)
Fixpoint to_elems {A} (elem : A → value → option A) (zero : A)
    (old : list A) (l : list value) : option (list A) :=
  match l with
  | [] => Some []
  | x :: r =>
      a ← elem (default zero (head old)) x;
      (a ::.) <$> to_elems elem zero (tail old) r
  end.

Definition to_slice {A} (elem : A → value → option A) (zero : A)
    (old : option (list A)) (v : value) : option (option (list A)) :=
  match v with
  | Arr l => Some <$> to_elems elem zero (default [] old) l
  | Null => Some None
  | _ => None
  end.

Definition ascii_lower (c : ascii) : ascii :=
  let n := N_of_ascii c in
  if (65 <=? n)%N && (n <=? 90)%N then ascii_of_N (n + 32) else c.

Fixpoint lower (s : string) : string :=
  match s with
  | EmptyString => EmptyString
  | String c r => String (ascii_lower c) (lower r)
  end.

(** Decoding an object into a struct: the members in order, each into
    the field whose (lower-case) JSON name equals the key up to ASCII
    case; other keys are skipped. *)
Definition to_struct {S} (field : string → value → S → option S)
    (old : S) (v : value) : option S :=
  match v with
  | Obj ms => foldl (λ acc '(k, x), s ← acc; field (lower k) x s) (Some old) ms
  | Null => Some old
  | _ => None
  end.

(** The value of an object's first member named [k]. *)
Fixpoint assoc (k : string) (ms : list (string * value)) : option value :=
  match ms with
  | [] => None
  | (k', v) :: r => if decide (k' = k) then Some v else assoc k r
  end.

Definition lookup_field (k : string) (v : value) : option value :=
  match v with
  | Obj ms => assoc k ms
  | _ => None
  end.

End Json.

(** ** Go values

    A slice is [None] when nil. [append s xs] with no [xs] returns [s]
    itself, so a nil slice stays nil. *)

Definition slice (A : Type) : Type := option (list A).

Definition elems {A} (s : slice A) : list A := default [] s.

Definition len {A} (s : slice A) : nat := length (elems s).

Definition append {A} (s : slice A) (xs : list A) : slice A :=
  match xs with
  | [] => s
  | _ => Some (elems s ++ xs)
  end.

(** ** The data model: the structs of main.go *)

Module Result.
Record t := mk {
  Timestamp : string;
  Subdomain : string;
  StatusCode : Z;
  Title : string;
  TechStack : slice string;
  Vulnerabilities : slice (gmap string Json.value);
  Source : string;
  Asn : string;
  Org : string;
  Versions : option (gmap string string)
}.
End Result.
Abbreviation Result := Result.t.

Module HttpxResult.
Record t := mk {
  Input : string;
  Url : string;
  StatusCode : Z;
  Title : string;
  Tech : slice string;
  WebServer : string
}.
Definition zero : t := mk "" "" 0 "" None "".
End HttpxResult.
Abbreviation HttpxResult := HttpxResult.t.

Module Address.
Record t := mk { Asn : Z; Desc : string }.
Definition zero : t := mk 0 "".
End Address.

Module AmassResult.
Record t := mk {
  Name : string;
  Domain : string;
  Addresses : slice Address.t
}.
Definition zero : t := mk "" "" None.
End AmassResult.
Abbreviation AmassResult := AmassResult.t.

(** The anonymous struct of WhatWebResult.Plugins; its field String is
    [String_] here. *)
Module Plugin.
Record t := mk { String_ : slice string; Version : slice string }.
Definition zero : t := mk None None.
End Plugin.

Module WhatWebResult.
Record t := mk {
  Target : string;
  Plugins : gmap string Plugin.t
}.
Definition zero : t := mk "" ∅.
End WhatWebResult.
Abbreviation WhatWebResult := WhatWebResult.t.

(** The type [Infrastructure] local to [main]. *)
Module Infrastructure.
Record t := mk { Asn : Z; Org : string }.
End Infrastructure.
Abbreviation Infrastructure := Infrastructure.t.

(** ** json.Unmarshal at the three decode points

    [None] stands for a non-nil error: a syntax error, or a value of the
    wrong JSON type for its field. *)

Definition HttpxResult_field (k : string) (x : Json.value) (h : HttpxResult)
  : option HttpxResult :=
  let '(HttpxResult.mk i u c t te w) := h in
  if decide (k = "input") then
    s ← Json.to_string i x; Some (HttpxResult.mk s u c t te w)
  else if decide (k = "url") then
    s ← Json.to_string u x; Some (HttpxResult.mk i s c t te w)
  else if decide (k = "status_code") then
    n ← Json.to_int c x; Some (HttpxResult.mk i u n t te w)
  else if decide (k = "title") then
    s ← Json.to_string t x; Some (HttpxResult.mk i u c s te w)
  else if decide (k = "tech") then
    l ← Json.to_slice Json.to_string "" te x; Some (HttpxResult.mk i u c t l w)
  else if decide (k = "webserver") then
    s ← Json.to_string w x; Some (HttpxResult.mk i u c t te s)
  else Some h.

(** json.Unmarshal(line, &hRes) with hRes the zero HttpxResult. *)
Definition unmarshal_HttpxResult (line : string) : option HttpxResult :=
  v ← Json.parse line;
  Json.to_struct HttpxResult_field HttpxResult.zero v.

Definition Address_field (k : string) (x : Json.value) (a : Address.t)
  : option Address.t :=
  let '(Address.mk n d) := a in
  if decide (k = "asn") then m ← Json.to_int n x; Some (Address.mk m d)
  else if decide (k = "desc") then s ← Json.to_string d x; Some (Address.mk n s)
  else Some a.

Definition AmassResult_field (k : string) (x : Json.value) (a : AmassResult)
  : option AmassResult :=
  let '(AmassResult.mk n d ad) := a in
  if decide (k = "name") then
    s ← Json.to_string n x; Some (AmassResult.mk s d ad)
  else if decide (k = "domain") then
    s ← Json.to_string d x; Some (AmassResult.mk n s ad)
  else if decide (k = "addresses") then
    l ← Json.to_slice (Json.to_struct Address_field) Address.zero ad x;
    Some (AmassResult.mk n d l)
  else Some a.

(** json.Unmarshal(line, &ar) with ar the zero AmassResult. *)
Definition unmarshal_AmassResult (line : string) : option AmassResult :=
  v ← Json.parse line;
  Json.to_struct AmassResult_field AmassResult.zero v.

Definition Plugin_field (k : string) (x : Json.value) (p : Plugin.t)
  : option Plugin.t :=
  let '(Plugin.mk s v) := p in
  if decide (k = "string") then
    l ← Json.to_slice Json.to_string "" s x; Some (Plugin.mk l v)
  else if decide (k = "version") then
    l ← Json.to_slice Json.to_string "" v x; Some (Plugin.mk s l)
  else Some p.

(** Decoding an object into a map[string]Plugin: every member is decoded
    from the zero Plugin and stored under its key as written. *)
Definition to_Plugins (old : gmap string Plugin.t) (x : Json.value)
  : option (gmap string Plugin.t) :=
  match x with
  | Json.Obj ms =>
      foldl (λ acc '(k, v),
               m ← acc;
               p ← Json.to_struct Plugin_field Plugin.zero v;
               Some (<[k := p]> m)) (Some old) ms
  | Json.Null => Some ∅
  | _ => None
  end.

Definition WhatWebResult_field (k : string) (x : Json.value) (w : WhatWebResult)
  : option WhatWebResult :=
  let '(WhatWebResult.mk t p) := w in
  if decide (k = "target") then
    s ← Json.to_string t x; Some (WhatWebResult.mk s p)
  else if decide (k = "plugins") then
    m ← to_Plugins p x; Some (WhatWebResult.mk t m)
  else Some w.

(** json.Unmarshal(wwOut, &wwResults) with wwResults a nil
    []WhatWebResult. *)
Definition unmarshal_WhatWebResults (out : string) : option (slice WhatWebResult) :=
  v ← Json.parse out;
  Json.to_slice (Json.to_struct WhatWebResult_field) WhatWebResult.zero None v.

(** ** fmt, strings and time *)

Definition nl : string := String "010"%char EmptyString.

(** fmt.Sprintf("AS%d", n) *)
Definition Sprintf_AS (n : Z) : string := "AS" +:+ pretty n.

(** strings.Join *)
Fixpoint Join (l : list string) (sep : string) : string :=
  match l with
  | [] => ""
  | [x] => x
  | x :: r => x +:+ sep +:+ Join r sep
  end.

(** A reading of the wall clock in its location: the civil date and time
    and the zone offset in minutes east of UTC. *)
Module Instant.
Record t := mk {
  year : N; month : N; day : N;
  hour : N; minute : N; second : N;
  offset : Z
}.

Definition valid (i : t) : Prop :=
  (year i ≤ 9999 ∧ 1 ≤ month i ≤ 12 ∧ 1 ≤ day i ≤ 31 ∧
   hour i < 24 ∧ minute i < 60 ∧ second i < 60)%N ∧
  (- 1440 < offset i < 1440)%Z.
End Instant.

Definition digit (n : N) : ascii := ascii_of_N (48 + n `mod` 10).

Definition pad2 (n : N) : string :=
  String (digit (n `div` 10)) (String (digit n) EmptyString).

Definition pad4 (n : N) : string :=
  String (digit (n `div` 1000)) (String (digit (n `div` 100)) (pad2 n)).

Definition zone (o : Z) : string :=
  if decide (o = 0)%Z then "Z"
  else
    let m := Z.to_N (Z.abs o) in
    (if decide (o < 0)%Z then "-" else "+")
      +:+ pad2 (m `div` 60) +:+ ":" +:+ pad2 (m `mod` 60).

(** t.Format(time.RFC3339), the layout 2006-01-02T15:04:05Z07:00. *)
Definition Format_RFC3339 (i : Instant.t) : string :=
  pad4 (Instant.year i) +:+ "-" +:+ pad2 (Instant.month i) +:+ "-"
    +:+ pad2 (Instant.day i) +:+ "T" +:+ pad2 (Instant.hour i) +:+ ":"
    +:+ pad2 (Instant.minute i) +:+ ":" +:+ pad2 (Instant.second i)
    +:+ zone (Instant.offset i).

(** What RFC 3339 calls a date-time without a fraction of a second:
    the shape and the ranges of the fields. *)
Definition val2 (a b : ascii) : N :=
  10 * (N_of_ascii a - 48) + (N_of_ascii b - 48).

Definition two_digits (a b : ascii) (lo hi : N) : bool :=
  Json.is_digit a && Json.is_digit b
    && (lo <=? val2 a b)%N && (val2 a b <=? hi)%N.

Definition wf_zone (s : string) : bool :=
  match s with
  | String "Z" EmptyString => true
  | String sg (String h1 (String h2 (String ":" (String m1 (String m2 EmptyString))))) =>
      (bool_decide (sg = "+"%char) || bool_decide (sg = "-"%char))
        && two_digits h1 h2 0 23 && two_digits m1 m2 0 59
  | _ => false
  end.

Definition wf_RFC3339 (s : string) : bool :=
  match s with
  | String y1 (String y2 (String y3 (String y4 (String "-"
      (String mo1 (String mo2 (String "-" (String d1 (String d2 (String "T"
        (String h1 (String h2 (String ":" (String mi1 (String mi2 (String ":"
          (String s1 (String s2 z)))))))))))))))))) =>
      Json.is_digit y1 && Json.is_digit y2 && Json.is_digit y3 && Json.is_digit y4
        && two_digits mo1 mo2 1 12 && two_digits d1 d2 1 31
        && two_digits h1 h2 0 23 && two_digits mi1 mi2 0 59
        && two_digits s1 s2 0 60 && wf_zone z
  | _ => false
  end.

(** ** json.Encoder.Encode of a Result

    The members in the order of the struct's fields; a field tagged
    omitempty is left out when it is the empty string or a map of length
    zero. A nil slice encodes as null, a map with its keys sorted. *)

Definition encode_strings (s : slice string) : Json.value :=
  match s with
  | None => Json.Null
  | Some l => Json.Arr (Json.Str <$> l)
  end.

Definition key_le {A} (a b : string * A) : Prop := String.leb a.1 b.1.

Definition sorted_entries {A} (m : gmap string A) : list (string * A) :=
  merge_sort key_le (map_to_list m).

Definition encode_string_map (m : gmap string string) : Json.value :=
  Json.Obj (prod_map id Json.Str <$> sorted_entries m).

Definition encode_objects (s : slice (gmap string Json.value)) : Json.value :=
  match s with
  | None => Json.Null
  | Some l => Json.Arr ((λ m, Json.Obj (sorted_entries m)) <$> l)
  end.

Definition omitempty_string (k s : string) : list (string * Json.value) :=
  if decide (s = "") then [] else [(k, Json.Str s)].

Definition omitempty_map (k : string) (m : option (gmap string string))
  : list (string * Json.value) :=
  match m with
  | None => []
  | Some m => if decide (size m = 0) then [] else [(k, encode_string_map m)]
  end.

Definition encode_Result (r : Result) : Json.value :=
  Json.Obj
    ([ ("timestamp", Json.Str (Result.Timestamp r));
       ("subdomain", Json.Str (Result.Subdomain r));
       ("status_code", Json.Num (pretty (Result.StatusCode r)));
       ("title", Json.Str (Result.Title r));
       ("tech_stack", encode_strings (Result.TechStack r));
       ("vulnerabilities", encode_objects (Result.Vulnerabilities r));
       ("source", Json.Str (Result.Source r)) ]
     ++ omitempty_string "asn" (Result.Asn r)
     ++ omitempty_string "org" (Result.Org r)
     ++ omitempty_map "versions" (Result.Versions r)).

(** ** What the program does to the outside world

    The trace of a thread: what it writes to the two output streams, the
    external commands it asks exec to run, the goroutines it creates and
    the exit of the process. *)

Inductive goroutine :=
| Subfinder (target : string)
| Amass (target : string)
| NmapWait
| Coordinator
| Feeder.

Inductive event :=
| Stdout (v : Json.value)      (* Encode on os.Stdout: one value, one line *)
| Stderr (s : string)          (* fmt.Fprintf(os.Stderr, ...) *)
| Exec (argv : list string)    (* Start() or Output() of exec.Command(argv...) *)
| Go (g : goroutine)           (* a go statement *)
| Exit (code : Z).             (* os.Exit(code) *)

(** A computation of the main goroutine: its trace, and its result unless
    the process has exited or the goroutine waits for ever. A run that a
    signal ends (SIGPIPE at a write, when standard output is a pipe whose
    reader has gone) stops inside the trace given here. *)
Definition M (A : Type) : Type := (list event * option A)%type.

Definition ret {A} (a : A) : M A := ([], Some a).

Definition bind {A B} (m : M A) (k : A → M B) : M B :=
  match m with
  | (t, Some a) => let '(t', r) := k a in (t ++ t', r)
  | (t, None) => (t, None)
  end.

#[export] Instance M_ret : MRet M := @ret.
#[export] Instance M_bind : MBind M := λ A B k m, bind m k.

Definition emit (e : event) : M unit := ([e], Some tt).

Definition exit {A} (code : Z) : M A := ([Exit code], None).

(** A call that never returns. *)
Definition block {A} : M A := ([], None).

Fixpoint for_each {A} (l : list A) (body : A → M unit) : M unit :=
  match l with
  | [] => ret tt
  | x :: r => _ ← body x; for_each r body
  end.

Definition trace {A} (m : M A) : list event := m.1.

Definition stdout_of (t : list event) : list Json.value :=
  omap (λ e, match e with Stdout v => Some v | _ => None end) t.

Definition execs_of (t : list event) : list (list string) :=
  omap (λ e, match e with Exec a => Some a | _ => None end) t.

Definition spawned_of (t : list event) : list goroutine :=
  omap (λ e, match e with Go g => Some g | _ => None end) t.

Definition stderr_of (t : list event) : list string :=
  omap (λ e, match e with Stderr s => Some s | _ => None end) t.

(** The exit status of the process: the argument of os.Exit when the
    trace has one, and otherwise 0, the status with which the process
    ends when main returns. *)
Definition exits_of (t : list event) : list Z :=
  omap (λ e, match e with Exit c => Some c | _ => None end) t.

Definition exit_status (t : list event) : Z :=
  match exits_of t with
  | c :: _ => c
  | [] => 0
  end.

(** ** The environment of one run *)

(** What the loop over httpx's output meets at one iteration: the line
    the scanner yields (a line too long for its buffer ends the loop, so
    the iterations stop before it), the clock, the infrastructure map as
    it is while the loop holds infraMutex, the outcome of whatweb's
    Output() ([None] for a non-nil error), the order in which range
    visits the keys of a plugin map, and the error of Encode ([None] for
    nil). *)
Record Iteration := {
  line : string;
  now : Instant.t;
  infraMap : gmap string Infrastructure;
  wwOut : option string;
  range : gmap string Plugin.t → list string;
  encode_err : option string
}.

(** Go visits every key of a map once, in an order of its choice. *)
Definition range_ok (it : Iteration) : Prop :=
  ∀ m, range it m ≡ₚ (map_to_list m).*1.

Record Env := {
  useDeep : bool;
  useFingerprint : bool;
  argv0 : string;                     (* os.Args[0] *)
  args : list string;                 (* flag.Args() *)
  LookPath : string → bool;           (* exec.LookPath(bin) finds bin *)
  httpx_StdinPipe : option string;    (* the errors, [None] for nil *)
  httpx_StdoutPipe : option string;
  httpx_Start : option string;
  nmap_Start : option string;
  httpxOut : list Iteration;
  httpx_exits : bool                  (* httpxCmd.Wait() returns *)
}.

(** ** checkBinaries, extractTech, fatalError *)

Definition bins (useDeep useFingerprint : bool) : list string :=
  let bins := ["subfinder"; "httpx"; "nmap"] in
  let bins := if useDeep then bins ++ ["amass"] else bins in
  let bins := if useFingerprint then bins ++ ["whatweb"] else bins in
  bins.

Definition errRes (bin : string) : Json.value :=
  encode_string_map
    {[ "error" := "Missing binary: " +:+ bin;
       "message" := "Please install required tools in PATH" ]}.

Definition checkBinaries (e : Env) : M unit :=
  for_each (bins (useDeep e) (useFingerprint e)) (λ bin,
    if LookPath e bin then ret tt
    else _ ← emit (Stdout (errRes bin)); exit 1).

Definition extractTech (h : HttpxResult) : slice string :=
  let techs : slice string := None in
  append techs (elems (HttpxResult.Tech h)).

Definition fatalError {A} (msg err : string) : M A :=
  _ ← emit (Stderr ("Error: " +:+ msg +:+ ": " +:+ err +:+ nl)); exit 1.

(** ** The loop over httpx's output *)

(** The Result literal of the loop body. *)
Definition new_Result (i : Instant.t) (hRes : HttpxResult) : Result :=
  {| Result.Timestamp := Format_RFC3339 i;
     Result.Subdomain := HttpxResult.Input hRes;
     Result.StatusCode := HttpxResult.StatusCode hRes;
     Result.Title := HttpxResult.Title hRes;
     Result.TechStack := extractTech hRes;
     Result.Vulnerabilities := Some [];
     Result.Source := "recon_pipeline";
     Result.Asn := "";
     Result.Org := "";
     Result.Versions := None |}.

Definition set_infra (res : Result) (asn org : string) : Result :=
  let '(Result.mk ts sub sc ti te vu so _ _ ve) := res in
  Result.mk ts sub sc ti te vu so asn org ve.

Definition set_enrichment (res : Result) (versions : gmap string string)
    (tech : slice string) : Result :=
  let '(Result.mk ts sub sc ti _ vu so asn org _) := res in
  Result.mk ts sub sc ti tech vu so asn org (Some versions).

(** Enrich with Amass Infra Data: the lookup under infraMutex. *)
Definition join (m : gmap string Infrastructure) (hRes : HttpxResult)
    (res : Result) : Result :=
  match m !! HttpxResult.Input hRes with
  | Some inf =>
      set_infra res (Sprintf_AS (Infrastructure.Asn inf)) (Infrastructure.Org inf)
  | None => res
  end.

(** The first loop over the plugins: a version entry for every plugin
    that reports at least one version. *)
Definition versions_of (plugins : gmap string Plugin.t) : gmap string string :=
  omap (λ info : Plugin.t,
          if decide (0 < len (Plugin.Version info))
          then Some (Join (elems (Plugin.Version info)) ", ")
          else None) plugins.

(** The inner loop of the second one: is [plugin] in the tech stack? *)
Fixpoint found (tech : list string) (plugin : string) : bool :=
  match tech with
  | [] => false
  | t :: r => if decide (t = plugin) then true else found r plugin
  end.

Definition merge_plugin (tech : slice string) (plugin : string) : slice string :=
  if found (elems tech) plugin then tech else append tech [plugin].

(** The second loop, over the keys in the order range yields them. *)
Definition merge_plugins (tech : slice string) (order : list string) : slice string :=
  foldl merge_plugin tech order.

Definition whatweb_argv (url : string) : list string :=
  ["whatweb"; "--aggression"; "3"; "--format=json"; url].

(** WhatWeb fingerprinting of one record. *)
Definition fingerprint (it : Iteration) (hRes : HttpxResult) (res : Result)
  : M Result :=
  _ ← emit (Exec (whatweb_argv (HttpxResult.Url hRes)));
  match wwOut it with
  | Some out =>
      match unmarshal_WhatWebResults out with
      | Some wwResults =>
          match elems wwResults with
          | w0 :: _ =>
              let plugins := WhatWebResult.Plugins w0 in
              ret (set_enrichment res (versions_of plugins)
                     (merge_plugins (Result.TechStack res) (range it plugins)))
          | [] => ret res
          end
      | None => ret res
      end
  | None => ret res
  end.

(** The enrichment has nothing to merge: whatweb did not run to a clean
    exit, its output does not decode, or it decodes to no result. *)
Definition enrichment_fails (it : Iteration) : Prop :=
  match wwOut it with
  | None => True
  | Some out =>
      match unmarshal_WhatWebResults out with
      | None => True
      | Some wwResults => elems wwResults = []
      end
  end.

Definition Encode (it : Iteration) (res : Result) : M unit :=
  match encode_err it with
  | None => emit (Stdout (encode_Result res))
  | Some err => emit (Stderr ("Error encoding result: " +:+ err +:+ nl))
  end.

(** One iteration of the loop over scanner.Scan(). *)
Definition process_line (useFingerprint : bool) (it : Iteration) : M unit :=
  match unmarshal_HttpxResult (line it) with
  | None => ret tt
  | Some hRes =>
      let res := new_Result (now it) hRes in
      let res := join (infraMap it) hRes res in
      res ← (if useFingerprint && bool_decide (0 < HttpxResult.StatusCode hRes)%Z
             then fingerprint it hRes res
             else ret res);
      Encode it res
  end.

(** What the join and the enrichment leave alone. *)
Definition same_base (res res' : Result) : Prop :=
  Result.Timestamp res' = Result.Timestamp res ∧
  Result.Subdomain res' = Result.Subdomain res ∧
  Result.StatusCode res' = Result.StatusCode res ∧
  Result.Title res' = Result.Title res ∧
  Result.Vulnerabilities res' = Result.Vulnerabilities res ∧
  Result.Source res' = Result.Source res.

(** ** main *)

Definition subfinder_argv (target : string) : list string :=
  ["subfinder"; "-d"; target; "-silent"].

Definition amass_argv (target : string) : list string :=
  ["amass"; "enum"; "-passive"; "-d"; target; "-json"; "/dev/stdout"].

Definition httpx_argv : list string :=
  ["httpx"; "-silent"; "-json"; "-title"; "-tech-detect"; "-status-code"].

Definition nmap_argv (target : string) : list string :=
  ["nmap"; "-F"; "--top-ports"; "100"; target; "-oN"; "nmap-scan.txt"].

Definition or_fatal (msg : string) (err : option string) : M unit :=
  match err with
  | Some e => fatalError msg e
  | None => ret tt
  end.

(** The main goroutine, from the parsed command line on. Registering
    sigChan with signal.Notify leaves no trace: nothing reads sigChan.
    When the loop is over main calls httpxCmd.Wait(), and returns when
    that call does. *)
Definition main (e : Env) : M unit :=
  match args e with
  | [] =>
      _ ← emit (Stderr ("Usage: " +:+ argv0 e
                          +:+ " [-deep] [-fingerprint] <target-domain>" +:+ nl));
      exit 1
  | target :: _ =>
      _ ← checkBinaries e;
      _ ← emit (Go (Subfinder target));
      _ ← (if useDeep e then emit (Go (Amass target)) else ret tt);
      _ ← or_fatal "Failed to create httpx stdin pipe" (httpx_StdinPipe e);
      _ ← or_fatal "Failed to create httpx stdout pipe" (httpx_StdoutPipe e);
      _ ← emit (Exec httpx_argv);
      _ ← or_fatal "Failed to start httpx" (httpx_Start e);
      _ ← emit (Exec (nmap_argv target));
      _ ← (if nmap_Start e is None then emit (Go NmapWait) else ret tt);
      _ ← emit (Go Coordinator);
      _ ← emit (Go Feeder);
      _ ← for_each (httpxOut e) (process_line (useFingerprint e));
      if httpx_exits e then ret tt else block
  end.

(** The ways the start-up can fail: the required tools LookPath does not
    find, in the order checkBinaries asks for them, and the first error
    on the way to a running httpx, with the message fatalError is given. *)
Definition missing (e : Env) : list string :=
  filter (λ bin, LookPath e bin = false) (bins (useDeep e) (useFingerprint e)).

Definition httpx_failure (e : Env) : option (string * string) :=
  match httpx_StdinPipe e, httpx_StdoutPipe e, httpx_Start e with
  | Some err, _, _ => Some ("Failed to create httpx stdin pipe", err)
  | None, Some err, _ => Some ("Failed to create httpx stdout pipe", err)
  | None, None, Some err => Some ("Failed to start httpx", err)
  | None, None, None => None
  end.

Definition with_nmap_Start (e : Env) (r : option string) : Env :=
  {| useDeep := useDeep e; useFingerprint := useFingerprint e;
     argv0 := argv0 e; args := args e; LookPath := LookPath e;
     httpx_StdinPipe := httpx_StdinPipe e;
     httpx_StdoutPipe := httpx_StdoutPipe e;
     httpx_Start := httpx_Start e; nmap_Start := r;
     httpxOut := httpxOut e; httpx_exits := httpx_exits e |}.

(** ** bufio.Scanner over the standard output of a tool

    The source goroutines read their tool through bufio.NewScanner with
    the split function ScanLines and the buffer left as it is: Scan
    yields a line when the line and its newline fit in MaxScanTokenSize
    bytes. At a longer line Scan returns false, with ErrTooLong for
    scanner.Err(); the loops never read scanner.Err(), so for them the
    output is over there. *)

Definition MaxScanTokenSize : N := 65536.

(** The bytes of the output between its newlines; what follows the last
    newline is a line of its own unless it is empty. *)
Fixpoint lines_of (out : string) : list string :=
  match out with
  | EmptyString => []
  | String c r =>
      if decide (c = "010"%char) then EmptyString :: lines_of r
      else match lines_of r with
           | [] => [String c EmptyString]
           | l :: ls => String c l :: ls
           end
  end.

(** ScanLines drops one carriage return at the end of a line. *)
Fixpoint dropCR (l : string) : string :=
  match l with
  | EmptyString => EmptyString
  | String c r =>
      match r with
      | EmptyString => if decide (c = "013"%char) then EmptyString else l
      | _ => String c (dropCR r)
      end
  end.

(** The tokens Scan yields of the lines [ls], up to the first line that
    does not fit. *)
Fixpoint tokens (max : N) (ls : list string) : list string :=
  match ls with
  | [] => []
  | l :: r =>
      if (N.of_nat (String.length l) <? max)%N then dropCR l :: tokens max r
      else []
  end.

(** [for scanner.Scan() { ... scanner.Text() ... }] over the output [out]. *)
Definition Scan (max : N) (out : string) : list string :=
  tokens max (lines_of out).

(** ** Discovery: the source goroutines, the channel and the feeder *)

(** What a tool does when a source goroutine runs it: StdoutPipe fails,
    Start fails, or the process runs and writes [out] to its standard
    output. *)
Inductive tool :=
| PipeFails (err : string)
| StartFails (err : string)
| Prints (out : string).

(** What exec gives a source goroutine: an error from StdoutPipe, an error
    from Start, or a running process with the lines its scanner yields
    before the output ends or a line is too long for the scanner. *)
Inductive spawn :=
| PipeError (err : string)
| StartError (err : string)
| Started (lines : list string).

(** The process as the goroutine's scanner reads it. *)
Definition scanned (t : tool) : spawn :=
  match t with
  | PipeFails err => PipeError err
  | StartFails err => StartError err
  | Prints out => Started (Scan MaxScanTokenSize out)
  end.

(** What a source goroutine does, in program order: [subdomains <- sub],
    [infraMap[name] = inf] under infraMutex, and [cmd.Wait()] when the
    loop over the scanner is over. *)
Inductive action :=
| Send (sub : string)
| Put (name : string) (inf : Infrastructure)
| Wait.

Definition subfinder_trace (target : string) (o : spawn) : list event :=
  match o with
  | PipeError err => [Stderr ("Subfinder pipe error: " +:+ err +:+ nl)]
  | StartError err =>
      [Exec (subfinder_argv target); Stderr ("Subfinder start error: " +:+ err +:+ nl)]
  | Started _ => [Exec (subfinder_argv target)]
  end.

Definition subfinder (o : spawn) : list action :=
  match o with
  | Started lines => (Send <$> lines) ++ [Wait]
  | _ => []
  end.

Definition amass_trace (target : string) (o : spawn) : list event :=
  match o with
  | PipeError err => [Stderr ("Amass pipe error: " +:+ err +:+ nl)]
  | StartError err =>
      [Exec (amass_argv target); Stderr ("Amass start error: " +:+ err +:+ nl)]
  | Started _ => [Exec (amass_argv target)]
  end.

(** The body of the loop over Amass's lines. *)
Definition amass_line (line : string) : list action :=
  match unmarshal_AmassResult line with
  | Some ar =>
      if decide (AmassResult.Name ar ≠ "") then
        Send (AmassResult.Name ar) ::
          match elems (AmassResult.Addresses ar) with
          | a0 :: _ =>
              [Put (AmassResult.Name ar)
                   {| Infrastructure.Asn := Address.Asn a0;
                      Infrastructure.Org := Address.Desc a0 |}]
          | [] => []
          end
      else []
  | None => []
  end.

Definition amass (o : spawn) : list action :=
  match o with
  | Started lines => (lines ≫= amass_line) ++ [Wait]
  | _ => []
  end.

(** The source goroutines main creates, in order. *)
Definition discovery (useDeep : bool) (sf am : spawn) : list (list action) :=
  subfinder sf :: (if useDeep then [amass am] else []).

(** The state the goroutines share. A source is [Some acts] while it
    still has [acts] to do and [None] once it has returned, which runs
    its deferred wgDiscovery.Done(). The coordinator returns when it has
    closed the channel, the feeder when it has closed httpx's stdin. *)
Record State := mkState {
  sources : list (option (list action));
  wgDiscovery : nat;
  subdomains : list string;      (* the channel's buffer, oldest first *)
  closed : bool;                 (* close(subdomains) has run *)
  infra : gmap string Infrastructure;
  seen : gset string;
  httpxIn : list string;         (* the lines written to httpx's stdin *)
  httpxIn_closed : bool
}.

Definition capacity : nat := 1000.

Definition init (progs : list (list action)) : State :=
  mkState (Some <$> progs) (length progs) [] false ∅ ∅ [] false.

(** Who moves: a source goroutine, the coordinator, the feeder, or the
    tool of a source, which exits. *)
Inductive label :=
| Source (i : nat)
| Coord
| Feed
| Exits (i : nat).

Inductive outcome :=
| Blocked            (* the goroutine waits, or has returned *)
| Panic              (* send on or close of a closed channel, negative counter *)
| Next (s : State).

Definition step_source (i : nat) (s : State) : outcome :=
  let '(mkState srcs wg ch cl inf sn hin hcl) := s in
  match srcs !! i with
  | Some (Some (Send sub :: rest)) =>
      if cl then Panic
      else if decide (length ch < capacity)
      then Next (mkState (<[i := Some rest]> srcs) wg (ch ++ [sub]) cl inf sn hin hcl)
      else Blocked
  | Some (Some (Put name v :: rest)) =>
      Next (mkState (<[i := Some rest]> srcs) wg ch cl (<[name := v]> inf) sn hin hcl)
  | Some (Some (Wait :: rest)) => Blocked
  | Some (Some []) =>
      match wg with
      | O => Panic
      | S n => Next (mkState (<[i := None]> srcs) n ch cl inf sn hin hcl)
      end
  | Some None | None => Blocked
  end.

(** The tool of source [i] exits: the goroutine's cmd.Wait() returns. As
    long as the tool runs the goroutine stays in Wait. *)
Definition step_exits (i : nat) (s : State) : outcome :=
  let '(mkState srcs wg ch cl inf sn hin hcl) := s in
  match srcs !! i with
  | Some (Some (Wait :: rest)) =>
      Next (mkState (<[i := Some rest]> srcs) wg ch cl inf sn hin hcl)
  | _ => Blocked
  end.

(** wgDiscovery.Wait(); close(subdomains) *)
Definition step_coord (s : State) : outcome :=
  let '(mkState srcs wg ch cl inf sn hin hcl) := s in
  if cl then Blocked
  else match wg with
       | O => Next (mkState srcs wg ch true inf sn hin hcl)
       | S _ => Blocked
       end.

(** One turn of [for sub := range subdomains], or httpxIn.Close() when
    the channel is closed and empty. The Fprintln of a turn returns when
    the pipe has taken the line: while httpx does not read and the pipe
    is full, the feeder makes no step. *)
Definition step_feed (s : State) : outcome :=
  let '(mkState srcs wg ch cl inf sn hin hcl) := s in
  if hcl then Blocked
  else match ch with
       | sub :: rest =>
           if bool_decide (sub ∈ sn)
           then Next (mkState srcs wg rest cl inf sn hin hcl)
           else Next (mkState srcs wg rest cl inf ({[sub]} ∪ sn) (hin ++ [sub]) hcl)
       | [] =>
           if cl then Next (mkState srcs wg ch cl inf sn hin true) else Blocked
       end.

Definition step (l : label) (s : State) : outcome :=
  match l with
  | Source i => step_source i s
  | Coord => step_coord s
  | Feed => step_feed s
  | Exits i => step_exits i s
  end.

(** A schedule: the goroutine that moves, or the tool that exits, at
    each step. *)
Fixpoint run (ls : list label) (s : State) : option State :=
  match ls with
  | [] => Some s
  | l :: r => match step l s with
              | Next s' => run r s'
              | _ => None
              end
  end.

(** Everything the sources send, and what is left of it to send. *)
Definition sends (acts : list action) : list string :=
  omap (λ a, match a with Send x => Some x | _ => None end) acts.

Definition emitted (progs : list (list action)) : list string :=
  progs ≫= sends.

Definition pending (srcs : list (option (list action))) : list string :=
  srcs ≫= (λ o, match o with Some acts => sends acts | None => [] end).

Definition cost (a : action) : nat :=
  match a with Send _ => 2 | Put _ _ | Wait => 1 end.

(** The steps a source has left: its actions (a send costs a step of the
    feeder too, a Wait is the step of the tool) and its return. *)
Definition weight (o : option (list action)) : nat :=
  match o with
  | Some acts => S (sum_list (cost <$> acts))
  | None => 0
  end.

(** The number of steps the system has left. *)
Definition measure (s : State) : nat :=
  sum_list (weight <$> sources s)
  + length (subdomains s)
  + (if closed s then 0 else 1)
  + (if httpxIn_closed s then 0 else 1).

Definition occurrences (x : string) (l : list string) : nat :=
  length (filter (λ y, y = x) l).

(** The source goroutines that have not returned yet. *)
Definition running (srcs : list (option (list action))) : nat :=
  sum_list ((λ o, match o with Some _ => 1 | None => 0 end) <$> srcs).

Arguments running : simpl never.
Arguments pending : simpl never.
Arguments emitted : simpl never.

(** What holds of every state the goroutines can reach from [init progs]. *)
Record Inv (progs : list (list action)) (s : State) : Prop := {
  inv_wg : wgDiscovery s = running (sources s);
  inv_closed : closed s = true → wgDiscovery s = 0;
  inv_eof : httpxIn_closed s = true → closed s = true ∧ subdomains s = [];
  inv_nodup : NoDup (httpxIn s);
  inv_seen : ∀ x, x ∈ seen s ↔ x ∈ httpxIn s;
  inv_flow : ∀ x,
    x ∈ emitted progs ↔
    x ∈ httpxIn s ∨ x ∈ subdomains s ∨ x ∈ pending (sources s)
}.

(** ** The earlier orchestrator: subfinder piped straight into httpx

    The second program of main.go: no toggles, no fan-in, no enrichment.
    Its declarations have the names of the first program's, so they live
    in a module of their own. *)

Module Basic.

Module Tech.
Record t := mk { Name : string }.
Definition zero : t := mk "".
End Tech.

Module HttpxResult.
Record t := mk {
  Input : string;
  Url : string;
  StatusCode : Z;
  Title : string;
  Tech : slice Tech.t;
  WebServer : slice string
}.
Definition zero : t := mk "" "" 0 "" None None.
End HttpxResult.

Module Result.
Record t := mk {
  Timestamp : string;
  Subdomain : string;
  StatusCode : Z;
  Title : string;
  TechStack : slice string;
  Vulnerabilities : slice (gmap string Json.value);
  Source : string
}.
End Result.

Definition Tech_field (k : string) (x : Json.value) (t : Tech.t) : option Tech.t :=
  if decide (k = "name") then s ← Json.to_string (Tech.Name t) x; Some (Tech.mk s)
  else Some t.

Definition HttpxResult_field (k : string) (x : Json.value) (h : HttpxResult.t)
  : option HttpxResult.t :=
  let '(HttpxResult.mk i u c t te w) := h in
  if decide (k = "input") then
    s ← Json.to_string i x; Some (HttpxResult.mk s u c t te w)
  else if decide (k = "url") then
    s ← Json.to_string u x; Some (HttpxResult.mk i s c t te w)
  else if decide (k = "status_code") then
    n ← Json.to_int c x; Some (HttpxResult.mk i u n t te w)
  else if decide (k = "title") then
    s ← Json.to_string t x; Some (HttpxResult.mk i u c s te w)
  else if decide (k = "tech") then
    l ← Json.to_slice (Json.to_struct Tech_field) Tech.zero te x;
    Some (HttpxResult.mk i u c t l w)
  else if decide (k = "webserver") then
    l ← Json.to_slice Json.to_string "" w x; Some (HttpxResult.mk i u c t te l)
  else Some h.

Definition unmarshal_HttpxResult (line : string) : option HttpxResult.t :=
  v ← Json.parse line;
  Json.to_struct HttpxResult_field HttpxResult.zero v.

(** The loop of extractTech: one append per detected technology. *)
Definition extractTech (h : HttpxResult.t) : slice string :=
  foldl (λ techs t, append techs [Tech.Name t]) None (elems (HttpxResult.Tech h)).

Definition encode_Result (r : Result.t) : Json.value :=
  Json.Obj
    [ ("timestamp", Json.Str (Result.Timestamp r));
      ("subdomain", Json.Str (Result.Subdomain r));
      ("status_code", Json.Num (pretty (Result.StatusCode r)));
      ("title", Json.Str (Result.Title r));
      ("tech_stack", encode_strings (Result.TechStack r));
      ("vulnerabilities", encode_objects (Result.Vulnerabilities r));
      ("source", Json.Str (Result.Source r)) ].

Inductive goroutine :=
| CloseWriter        (* waits for subfinder, then closes the pipe's write end *)
| OnSignal.          (* waits for SIGINT or SIGTERM *)

Inductive event :=
| Stdout (v : Json.value)
| Stderr (s : string)
| Exec (argv : list string)
| Go (g : goroutine)
| Exit (code : Z).

Definition M (A : Type) : Type := (list event * option A)%type.

Definition ret {A} (a : A) : M A := ([], Some a).

Definition bind {A B} (m : M A) (k : A → M B) : M B :=
  match m with
  | (t, Some a) => let '(t', r) := k a in (t ++ t', r)
  | (t, None) => (t, None)
  end.

Definition seq {A} (m : M unit) (k : M A) : M A := bind m (λ _, k).

Definition emit (e : event) : M unit := ([e], Some tt).

Definition exit {A} (code : Z) : M A := ([Exit code], None).

Definition block {A} : M A := ([], None).

Fixpoint for_each {A} (l : list A) (body : A → M unit) : M unit :=
  match l with
  | [] => ret tt
  | x :: r => seq (body x) (for_each r body)
  end.

Definition stdout_of (t : list event) : list Json.value :=
  omap (λ e, match e with Stdout v => Some v | _ => None end) t.

Definition stderr_of (t : list event) : list string :=
  omap (λ e, match e with Stderr s => Some s | _ => None end) t.

Definition execs_of (t : list event) : list (list string) :=
  omap (λ e, match e with Exec a => Some a | _ => None end) t.

Definition exits_of (t : list event) : list Z :=
  omap (λ e, match e with Exit c => Some c | _ => None end) t.

(** The environment: the arguments after the program's name, and the
    errors of os.Pipe, StdoutPipe and the two Start calls. The loop uses
    the line, the clock and the Encode error of each iteration. *)
Record Env := {
  argv0 : string;
  args : list string;
  LookPath : string → bool;
  Pipe : option string;
  httpx_StdoutPipe : option string;
  subfinder_Start : option string;
  httpx_Start : option string;
  httpxOut : list Iteration;
  httpx_exits : bool               (* httpxCmd.Wait() returns *)
}.

Definition bins : list string := ["subfinder"; "httpx"].

Definition checkBinaries (e : Env) : M unit :=
  for_each bins (λ bin,
    if LookPath e bin then ret tt
    else seq (emit (Stdout (errRes bin))) (exit 1)).

Definition fatalError {A} (msg err : string) : M A :=
  seq (emit (Stderr ("Error: " +:+ msg +:+ ": " +:+ err +:+ nl))) (exit 1).

Definition or_fatal (msg : string) (err : option string) : M unit :=
  match err with
  | Some e => fatalError msg e
  | None => ret tt
  end.

Definition process_line (it : Iteration) : M unit :=
  match unmarshal_HttpxResult (line it) with
  | None => ret tt
  | Some hRes =>
      let res :=
        {| Result.Timestamp := Format_RFC3339 (now it);
           Result.Subdomain := HttpxResult.Input hRes;
           Result.StatusCode := HttpxResult.StatusCode hRes;
           Result.Title := HttpxResult.Title hRes;
           Result.TechStack := extractTech hRes;
           Result.Vulnerabilities := Some [];
           Result.Source := "recon_pipeline" |} in
      match encode_err it with
      | None => emit (Stdout (encode_Result res))
      | Some err => emit (Stderr ("Error encoding result: " +:+ err +:+ nl))
      end
  end.

Definition main (e : Env) : M unit :=
  match args e with
  | [] =>
      seq (emit (Stderr ("Usage: " +:+ argv0 e +:+ " <target-domain>" +:+ nl)))
          (exit 1)
  | target :: _ =>
      seq (checkBinaries e)
     (seq (or_fatal "Failed to create pipe" (Pipe e))
     (seq (or_fatal "Failed to get httpx stdout" (httpx_StdoutPipe e))
     (seq (emit (Exec (subfinder_argv target)))
     (seq (or_fatal "Failed to start subfinder" (subfinder_Start e))
     (seq (emit (Exec httpx_argv))
     (seq (or_fatal "Failed to start httpx" (httpx_Start e))
     (seq (emit (Go CloseWriter))
     (seq (emit (Go OnSignal))
     (seq (for_each (httpxOut e) process_line)
          (if httpx_exits e then ret tt else block))))))))))
  end.

(** The first error on the way to the running pipeline, with the message
    fatalError is given. *)
Definition startup_failure (e : Env) : option (string * string) :=
  match Pipe e, httpx_StdoutPipe e, subfinder_Start e, httpx_Start e with
  | Some err, _, _, _ => Some ("Failed to create pipe", err)
  | None, Some err, _, _ => Some ("Failed to get httpx stdout", err)
  | None, None, Some err, _ => Some ("Failed to start subfinder", err)
  | None, None, None, Some err => Some ("Failed to start httpx", err)
  | None, None, None, None => None
  end.

End Basic.

(** ** The feeder's loop, read sequentially

    What [for sub := range subdomains] writes when it receives the
    identifiers of [l] in order, starting with the set [sn] of seen
    ones. *)
Fixpoint first_occurrences_from (sn : gset string) (l : list string) : list string :=
  match l with
  | [] => []
  | sub :: r =>
      if bool_decide (sub ∈ sn) then first_occurrences_from sn r
      else sub :: first_occurrences_from ({[sub]} ∪ sn) r
  end.

(** The writes to infraMap among a source's actions. *)
Definition puts (acts : list action) : list (string * Infrastructure) :=
  omap (λ a, match a with Put k v => Some (k, v) | _ => None end) acts.

(** What the goroutines still have to do comes from the programs they
    started with. *)
Definition from_progs (progs : list (list action))
    (srcs : list (option (list action))) : Prop :=
  ∀ acts a, Some acts ∈ srcs → a ∈ acts → ∃ p, p ∈ progs ∧ a ∈ p.

(** With one source, what is written plus what the feeder will write of
    the identifiers still on their way is what it writes of all of them. *)
Definition in_order (p : list action) (s : State) : Prop :=
  (∃ o, sources s = [o]) ∧
  httpxIn s ++ first_occurrences_from (seen s) (subdomains s ++ pending (sources s))
  = first_occurrences_from ∅ (sends p).

(** The steps of the program's goroutines, as opposed to the exit of a
    tool. *)
Definition is_goroutine (l : label) : bool :=
  match l with
  | Exits _ => false
  | _ => true
  end.

#[export] Instance label_eq_dec : EqDecision label.
Proof. solve_decision. Defined.

(** A source that has returned or is in cmd.Wait(): it makes no step
    before its tool exits. *)
Definition parked (o : option (list action)) : bool :=
  match o with
  | None | Some (Wait :: _) => true
  | _ => false
  end.

(** A program that waits for its tool at the very end only, as the
    source goroutines do. *)
Fixpoint wait_last (acts : list action) : bool :=
  match acts with
  | [] => true
  | Wait :: rest => match rest with [] => true | _ => false end
  | _ :: rest => wait_last rest
  end.

(** Source [i] has its cmd.Wait() still to come, or is in it. *)
Definition before_wait (i : nat) (s : State) : Prop :=
  ∃ acts, sources s !! i = Some (Some acts) ∧ Wait ∈ acts.

(** ** Sample inputs

    JSON texts are written with apostrophes for the quotation marks. *)

Fixpoint json_text (s : string) : string :=
  match s with
  | EmptyString => EmptyString
  | String c r =>
      String (if decide (c = "'"%char) then "034"%char else c) (json_text r)
  end.

Definition demo_subfinder : spawn :=
  Started ["a.example.com"; "b.example.com"; "a.example.com"].

Definition demo_amass : spawn :=
  Started
    [json_text "{'name':'b.example.com','addresses':[{'asn':13335,'desc':'CLOUDFLARENET'}]}";
     "not json";
     json_text "{'name':'c.example.com'}"].

(** The same processes by what they print. *)
Definition demo_subfinder_tool : tool :=
  Prints ("a.example.com" +:+ nl +:+ "b.example.com" +:+ nl +:+ "a.example.com" +:+ nl).

Definition demo_amass_tool : tool :=
  Prints
    (json_text "{'name':'b.example.com','addresses':[{'asn':13335,'desc':'CLOUDFLARENET'}]}"
     +:+ nl +:+ "not json" +:+ nl +:+ json_text "{'name':'c.example.com'}" +:+ nl).

(** An output with a line of 70000 bytes between two host names. *)
Fixpoint replicate_char (n : nat) (c : ascii) : string :=
  match n with
  | O => EmptyString
  | S n => String c (replicate_char n c)
  end.

Definition long_line : string := replicate_char (N.to_nat 70000) "x"%char.

Definition long_output : string :=
  "a.example.com" +:+ nl +:+ long_line +:+ nl +:+ "b.example.com" +:+ nl.

(** The transform output line of the specification's example. *)
Definition spec_line : string :=
  json_text "{'input':'a.example.com','url':'https://a.example.com','status_code':200,'title':'T','tech':['nginx']}".

Definition demo_now : Instant.t := Instant.mk 2026 10 30 9 5 7 (-330).

Definition demo_iteration (l : string) (m : gmap string Infrastructure)
    (ww : option string) : Iteration :=
  {| line := l; now := demo_now; infraMap := m; wwOut := ww;
     range := λ plugins, (map_to_list plugins).*1; encode_err := None |}.

Definition demo_infra : gmap string Infrastructure :=
  {[ "a.example.com" := Infrastructure.mk 13335 "CLOUDFLARENET" ]}.

(** An Amass line whose first address carries no description. *)
Definition amass_no_desc : spawn :=
  Started [json_text "{'name':'a.example.com','addresses':[{'asn':13335}]}"].

Definition demo_plugins : gmap string Plugin.t :=
  {[ "nginx" := Plugin.mk None (Some ["1.18.0"]);
     "PHP" := Plugin.mk None (Some ["8.1"; "8"]);
     "HTML5" := Plugin.zero ]}.

(** An httpx line for a live host, and WhatWeb outputs that cannot be
    merged: not JSON, and an empty array. *)
Definition live_line : string :=
  json_text "{'input':'b.example.com','url':'http://b.example.com','status_code':301,'tech':['nginx']}".

Definition ww_garbage : string := "ERROR Opening: http://b.example.com - execution expired".

Definition ww_empty : string := "[]".

Definition ww_found : string :=
  json_text "[{'target':'http://b.example.com','http_status':301,'plugins':{'nginx':{'version':['1.18.0']},'PHP':{'version':['8.1','8']},'HTML5':{}}}]".

(** An httpx line whose tech array names b twice, and a WhatWeb output
    with the one plugin PHP. *)
Definition repeated_tech_line : string :=
  json_text "{'input':'b.example.com','url':'http://b.example.com','status_code':200,'tech':['b','a','b']}".

Definition ww_php : string :=
  json_text "[{'target':'http://b.example.com','plugins':{'PHP':{}}}]".

(** A run with every tool installed and both toggles off. *)
Definition demo_env : Env :=
  {| useDeep := false; useFingerprint := false;
     argv0 := "recon-engine"; args := ["example.com"];
     LookPath := λ _, true;
     httpx_StdinPipe := None; httpx_StdoutPipe := None;
     httpx_Start := None; nmap_Start := None;
     httpxOut := [demo_iteration spec_line ∅ None];
     httpx_exits := true |}.

(** The same with httpx found on the path but failing to start. *)
Definition start_fails_env : Env :=
  {| useDeep := false; useFingerprint := false;
     argv0 := "recon-engine"; args := ["example.com"];
     LookPath := λ _, true;
     httpx_StdinPipe := None; httpx_StdoutPipe := None;
     httpx_Start := Some "fork/exec /usr/bin/httpx: resource temporarily unavailable";
     nmap_Start := None;
     httpxOut := [];
     httpx_exits := true |}.

(** The same with nmap not installed. *)
Definition no_nmap_env : Env :=
  {| useDeep := false; useFingerprint := false;
     argv0 := "recon-engine"; args := ["example.com"];
     LookPath := λ bin, bool_decide (bin ≠ "nmap");
     httpx_StdinPipe := None; httpx_StdoutPipe := None;
     httpx_Start := None; nmap_Start := None;
     httpxOut := [];
     httpx_exits := true |}.

Definition failing_encode_iteration : Iteration :=
  {| line := spec_line; now := demo_now; infraMap := ∅; wwOut := None;
     range := λ plugins, (map_to_list plugins).*1;
     encode_err := Some "write /dev/stdout: no space left on device" |}.

Definition no_target_env : Env :=
  {| useDeep := true; useFingerprint := true;
     argv0 := "recon-engine"; args := [];
     LookPath := λ _, false;
     httpx_StdinPipe := None; httpx_StdoutPipe := None;
     httpx_Start := None; nmap_Start := None;
     httpxOut := [];
     httpx_exits := true |}.

Definition no_amass_env : Env :=
  {| useDeep := false; useFingerprint := false;
     argv0 := "recon-engine"; args := ["example.com"];
     LookPath := λ bin, bool_decide (bin ≠ "amass" ∧ bin ≠ "whatweb");
     httpx_StdinPipe := None; httpx_StdoutPipe := None;
     httpx_Start := None; nmap_Start := None;
     httpxOut := [];
     httpx_exits := true |}.

Definition basic_start_fails_env : Basic.Env :=
  {| Basic.argv0 := "recon-engine"; Basic.args := ["example.com"];
     Basic.LookPath := λ _, true;
     Basic.Pipe := None; Basic.httpx_StdoutPipe := None;
     Basic.subfinder_Start := None;
     Basic.httpx_Start := Some "fork/exec /usr/bin/httpx: resource temporarily unavailable";
     Basic.httpxOut := [];
     Basic.httpx_exits := true |}.

Definition basic_line : string :=
  json_text "{'input':'a.example.com','url':'https://a.example.com','status_code':200,'title':'T','tech':[{'name':'nginx'},{'name':'PHP'}],'webserver':['nginx']}".


Definition demo_schedule : list label :=
  [Source 0; Source 1; Feed; Source 1; Source 0; Source 0; Exits 0; Source 0;
   Feed; Feed; Source 1; Exits 1; Source 1; Coord; Feed; Feed; Feed].

(** * Properties *)

(** ** The discovery fan-in *)

Section fan_in.
Implicit Types (srcs : list (option (list action))) (s : State).

Lemma insert_split srcs i o :
  srcs !! i = Some o →
  ∃ pre post, srcs = pre ++ o :: post ∧
              ∀ o', <[i := o']> srcs = pre ++ o' :: post.
Proof.
  intros Hi. exists (take i srcs), (drop (S i) srcs). split.
  - by rewrite take_drop_middle.
  - intros o'. apply insert_take_drop. by eapply lookup_lt_Some.
Qed.

Lemma running_cons o srcs :
  running (o :: srcs) = (if o is Some _ then 1 else 0) + running srcs.
Proof. done. Qed.

Lemma running_app srcs1 srcs2 :
  running (srcs1 ++ srcs2) = running srcs1 + running srcs2.
Proof.
  induction srcs1 as [|o srcs1 IH]; [done|].
  rewrite <- app_comm_cons, !running_cons, IH. lia.
Qed.

Lemma running_0 srcs : running srcs = 0 → ∀ o, o ∈ srcs → o = None.
Proof.
  induction srcs as [|[acts|] srcs IH]; rewrite ?running_cons; intros H0 o Ho.
  - by apply elem_of_nil in Ho.
  - discriminate H0.
  - apply elem_of_cons in Ho as [->|Ho]; [done|]. by apply IH.
Qed.

Lemma running_pos srcs :
  0 < running srcs → ∃ i acts, srcs !! i = Some (Some acts).
Proof.
  induction srcs as [|[acts|] srcs IH]; rewrite ?running_cons; intros Hpos.
  - inversion Hpos.
  - by exists 0, acts.
  - destruct IH as (i & acts & Hi); [exact Hpos|]. by exists (S i), acts.
Qed.

Lemma pending_cons o srcs :
  pending (o :: srcs) = (if o is Some acts then sends acts else []) ++ pending srcs.
Proof. done. Qed.

Lemma pending_app srcs1 srcs2 :
  pending (srcs1 ++ srcs2) = pending srcs1 ++ pending srcs2.
Proof. apply bind_app. Qed.

Lemma pending_none srcs : (∀ o, o ∈ srcs → o = None) → pending srcs = [].
Proof.
  induction srcs as [|o srcs IH]; intros Hall; [done|].
  rewrite pending_cons, (Hall o) by apply list_elem_of_here.
  apply IH. intros o' Ho'. apply Hall. by apply list_elem_of_further.
Qed.

Lemma pending_init progs : pending (Some <$> progs) = emitted progs.
Proof.
  induction progs as [|p progs IH]; [done|].
  rewrite fmap_cons, pending_cons, IH. done.
Qed.

Lemma running_init progs : running (Some <$> progs) = length progs.
Proof.
  induction progs as [|p progs IH]; [done|].
  rewrite fmap_cons, running_cons, IH. done.
Qed.

Lemma Inv_init progs : Inv progs (init progs).
Proof.
  split; simpl.
  - by rewrite running_init.
  - discriminate.
  - discriminate.
  - constructor.
  - intros x. set_solver.
  - intros x. rewrite pending_init. set_solver.
Qed.

Lemma Inv_step_source progs i s s' :
  Inv progs s → step_source i s = Next s' → Inv progs s'.
Proof.
  intros [Hwg Hcl Heof Hnd Hseen Hflow].
  destruct s as [srcs wg ch cl inf sn hin hcl]. simpl in *.
  destruct (srcs !! i) as [[[|[sub|name v|] rest]|]|] eqn:Hi; try discriminate.
  - (* the deferred Done *)
    destruct wg as [|n]; [discriminate|]. intros [= <-].
    destruct (insert_split _ _ _ Hi) as (pre & post & -> & Hins).
    rewrite Hins. rewrite running_app, running_cons in Hwg.
    split; simpl.
    + rewrite running_app, running_cons. lia.
    + intros ->. specialize (Hcl eq_refl). lia.
    + intros ->. destruct (Heof eq_refl) as [-> _].
      specialize (Hcl eq_refl). lia.
    + done.
    + done.
    + intros x. rewrite (Hflow x), !pending_app, !pending_cons. done.
  - (* a send *)
    destruct cl; [discriminate|]. case_decide; [|discriminate]. intros [= <-].
    destruct (insert_split _ _ _ Hi) as (pre & post & -> & Hins).
    rewrite Hins. rewrite running_app, running_cons in Hwg.
    split; simpl.
    + rewrite running_app, running_cons. lia.
    + discriminate.
    + intros ->. by destruct (Heof eq_refl).
    + done.
    + done.
    + intros x. rewrite (Hflow x), !pending_app, !pending_cons. simpl.
      rewrite !elem_of_app, !elem_of_cons, !elem_of_app, elem_of_nil.
      naive_solver.
  - (* a write to infraMap *)
    intros [= <-].
    destruct (insert_split _ _ _ Hi) as (pre & post & -> & Hins).
    rewrite Hins. rewrite running_app, running_cons in Hwg.
    split; simpl.
    + rewrite running_app, running_cons. lia.
    + done.
    + done.
    + done.
    + done.
    + intros x. rewrite (Hflow x), !pending_app, !pending_cons. done.
Qed.

Lemma Inv_step_exits progs i s s' :
  Inv progs s → step_exits i s = Next s' → Inv progs s'.
Proof.
  intros [Hwg Hcl Heof Hnd Hseen Hflow].
  destruct s as [srcs wg ch cl inf sn hin hcl]. simpl in *.
  destruct (srcs !! i) as [[[|[sub|name v|] rest]|]|] eqn:Hi; try discriminate.
  intros [= <-].
  destruct (insert_split _ _ _ Hi) as (pre & post & -> & Hins).
  rewrite Hins. rewrite running_app, running_cons in Hwg.
  split; simpl; try done.
  - rewrite running_app, running_cons. lia.
  - intros x. rewrite (Hflow x), !pending_app, !pending_cons. done.
Qed.

Lemma Inv_step_coord progs s s' :
  Inv progs s → step_coord s = Next s' → Inv progs s'.
Proof.
  intros [Hwg Hcl Heof Hnd Hseen Hflow].
  destruct s as [srcs wg ch cl inf sn hin hcl]. simpl in *.
  destruct cl; [discriminate|]. destruct wg; [|discriminate]. intros [= <-].
  split; simpl; try done.
  intros ->. by destruct (Heof eq_refl).
Qed.

Lemma Inv_step_feed progs s s' :
  Inv progs s → step_feed s = Next s' → Inv progs s'.
Proof.
  intros [Hwg Hcl Heof Hnd Hseen Hflow].
  destruct s as [srcs wg ch cl inf sn hin hcl]. simpl in *.
  destruct hcl; [discriminate|]. destruct ch as [|sub rest].
  - destruct cl; [|discriminate]. intros [= <-]. split; simpl; done.
  - case_bool_decide as Hin; intros [= <-]; split; simpl; try done.
    + intros x. rewrite (Hflow x), elem_of_cons.
      apply Hseen in Hin. naive_solver.
    + apply NoDup_app. split_and!; [done| |apply NoDup_singleton].
      intros x Hx ->%list_elem_of_singleton. apply Hin. by apply Hseen.
    + intros x. rewrite elem_of_union, elem_of_singleton, elem_of_app,
        list_elem_of_singleton, Hseen. naive_solver.
    + intros x. rewrite (Hflow x), elem_of_cons, elem_of_app,
        list_elem_of_singleton. naive_solver.
Qed.

Lemma Inv_step progs l s s' : Inv progs s → step l s = Next s' → Inv progs s'.
Proof.
  destruct l; cbn;
    eauto using Inv_step_source, Inv_step_coord, Inv_step_feed, Inv_step_exits.
Qed.

Lemma Inv_run progs ls : ∀ s s', Inv progs s → run ls s = Some s' → Inv progs s'.
Proof.
  induction ls as [|l ls IH]; intros s s' HI; cbn.
  - by intros [= <-].
  - destruct (step l s) as [| |s1] eqn:Hs; try discriminate.
    apply IH. by eapply Inv_step.
Qed.

Lemma reachable_Inv progs ls s : run ls (init progs) = Some s → Inv progs s.
Proof. apply Inv_run, Inv_init. Qed.

Lemma run_app ls1 ls2 s s1 :
  run ls1 s = Some s1 → run (ls1 ++ ls2) s = run ls2 s1.
Proof.
  revert s. induction ls1 as [|l ls1 IH]; intros s; simpl.
  - by intros [= ->].
  - destruct (step l s); try discriminate. apply IH.
Qed.

Lemma weight_cons a acts : weight (Some (a :: acts)) = cost a + weight (Some acts).
Proof. unfold weight. rewrite fmap_cons. simpl. lia. Qed.

Lemma sum_weight_cons o srcs :
  sum_list (weight <$> o :: srcs) = weight o + sum_list (weight <$> srcs).
Proof. done. Qed.

Lemma sum_weight_app srcs1 srcs2 :
  sum_list (weight <$> srcs1 ++ srcs2)
  = sum_list (weight <$> srcs1) + sum_list (weight <$> srcs2).
Proof.
  induction srcs1 as [|o srcs1 IH]; [done|].
  rewrite <- app_comm_cons, !sum_weight_cons, IH. lia.
Qed.

Lemma measure_eq srcs wg ch cl inf sn hin hcl :
  measure (mkState srcs wg ch cl inf sn hin hcl)
  = sum_list (weight <$> srcs) + length ch
    + (if cl then 0 else 1) + (if hcl then 0 else 1).
Proof. done. Qed.

(** Every step uses up one unit of the measure. *)
Lemma measure_step l s s' : step l s = Next s' → measure s = S (measure s').
Proof.
  destruct s as [srcs wg ch cl inf sn hin hcl].
  destruct l as [i| | |i]; simpl.
  - destruct (srcs !! i) as [[[|[sub|name v|] rest]|]|] eqn:Hi; try discriminate;
      destruct (insert_split _ _ _ Hi) as (pre & post & -> & Hins).
    + destruct wg; [discriminate|]. intros [= <-].
      rewrite !measure_eq, Hins, !sum_weight_app, !sum_weight_cons.
      change (weight (Some [])) with 1. change (weight None) with 0. lia.
    + destruct cl; [discriminate|]. case_decide; [|discriminate]. intros [= <-].
      rewrite !measure_eq, Hins, !sum_weight_app, !sum_weight_cons,
        weight_cons, length_app.
      change (cost (Send sub)) with 2. change (length [sub]) with 1. lia.
    + intros [= <-].
      rewrite !measure_eq, Hins, !sum_weight_app, !sum_weight_cons, weight_cons.
      change (cost (Put name v)) with 1. lia.
  - destruct cl; [discriminate|]. destruct wg; [|discriminate]. intros [= <-].
    rewrite !measure_eq. lia.
  - destruct hcl; [discriminate|]. destruct ch as [|sub rest].
    + destruct cl; [|discriminate]. intros [= <-]. rewrite !measure_eq. lia.
    + case_bool_decide; intros [= <-]; rewrite !measure_eq; simpl; lia.
  - destruct (srcs !! i) as [[[|[sub|name v|] rest]|]|] eqn:Hi; try discriminate.
    destruct (insert_split _ _ _ Hi) as (pre & post & -> & Hins). intros [= <-].
    rewrite !measure_eq, Hins, !sum_weight_app, !sum_weight_cons, weight_cons.
    change (cost Wait) with 1. lia.
Qed.


(** While httpx's stdin is open, a goroutine can move or a source waits
    for its tool, which can exit. *)
Lemma progress progs s :
  Inv progs s → httpxIn_closed s = false → ∃ l s', step l s = Next s'.
Proof.
  intros [Hwg Hcl Heof Hnd Hseen Hflow].
  destruct s as [srcs wg ch cl inf sn hin hcl]. simpl in *. intros ->.
  destruct ch as [|sub rest] eqn:Hch.
  - destruct cl eqn:Hc.
    + exists Feed. simpl. eauto.
    + destruct wg as [|n] eqn:Hw.
      * exists Coord. simpl. eauto.
      * destruct (running_pos srcs) as (i & acts & Hi); [lia|].
        destruct acts as [|[x|k v|] rest'].
        -- exists (Source i). simpl. rewrite Hi. eauto.
        -- exists (Source i). simpl. rewrite Hi. eauto.
        -- exists (Source i). simpl. rewrite Hi. eauto.
        -- exists (Exits i). simpl. rewrite Hi. eauto.
  - exists Feed. simpl. case_bool_decide; eauto.
Qed.

(** No goroutine sends on or closes a closed channel, and the counter
    of the wait group never goes below zero. *)
Lemma no_panic progs s l : Inv progs s → step l s ≠ Panic.
Proof.
  intros [Hwg Hcl Heof Hnd Hseen Hflow].
  destruct s as [srcs wg ch cl inf sn hin hcl]. simpl in *.
  destruct l as [i| | |i]; simpl.
  - destruct (srcs !! i) as [[[|[sub|name v|] rest]|]|] eqn:Hi; try done;
      destruct (insert_split _ _ _ Hi) as (pre & post & -> & Hins);
      rewrite running_app, running_cons in Hwg.
    + destruct wg; [lia|done].
    + destruct cl; [specialize (Hcl eq_refl); lia|]. by case_decide.
  - destruct cl; [done|]. by destruct wg.
  - destruct hcl; [done|]. destruct ch; [by destruct cl|by case_bool_decide].
  - by destruct (srcs !! i) as [[[|[sub|name v|] rest]|]|].
Qed.

(** From every reachable state some schedule runs the system to the
    end, where httpx's stdin is closed; the tools the sources wait for
    exit on the way. *)
Lemma completes progs n : ∀ s,
  Inv progs s → measure s ≤ n →
  ∃ ls s', run ls s = Some s' ∧ httpxIn_closed s' = true.
Proof.
  induction n as [|n IH]; intros s HI Hm.
  - destruct (httpxIn_closed s) eqn:Hc; [by exists [], s|].
    unfold measure in Hm. rewrite Hc in Hm. lia.
  - destruct (httpxIn_closed s) eqn:Hc; [by exists [], s|].
    destruct (progress _ _ HI Hc) as (l & s1 & Hs).
    destruct (IH s1) as (ls & s' & Hr & Hc').
    + by eapply Inv_step.
    + apply measure_step in Hs. lia.
    + exists (l :: ls), s'. simpl. by rewrite Hs.
Qed.

(** The infrastructure map only grows: an entry, once stored, is there
    for every later lookup (a later write may replace its value). *)
Lemma infra_kept_step l s s' k :
  step l s = Next s' → is_Some (infra s !! k) → is_Some (infra s' !! k).
Proof.
  destruct s as [srcs wg ch cl inf sn hin hcl].
  destruct l as [i| | |i]; simpl.
  - destruct (srcs !! i) as [[[|[sub|name v|] rest]|]|]; try discriminate.
    + destruct wg; [discriminate|]. by intros [= <-].
    + destruct cl; [discriminate|]. case_decide; [|discriminate]. by intros [= <-].
    + intros [= <-]. simpl. rewrite lookup_insert. case_decide; eauto.
  - destruct cl; [discriminate|]. destruct wg; [|discriminate]. by intros [= <-].
  - destruct hcl; [discriminate|]. destruct ch as [|sub rest].
    + destruct cl; [|discriminate]. by intros [= <-].
    + case_bool_decide; by intros [= <-].
  - destruct (srcs !! i) as [[[|[sub|name v|] rest]|]|]; try discriminate.
    by intros [= <-].
Qed.

Lemma infra_kept ls : ∀ s s' k,
  run ls s = Some s' → is_Some (infra s !! k) → is_Some (infra s' !! k).
Proof.
  induction ls as [|l ls IH]; intros s s' k; simpl.
  - by intros [= <-].
  - destruct (step l s) as [| |s1] eqn:Hs; try discriminate.
    intros Hr Hk. eapply IH; [done|]. by eapply infra_kept_step.
Qed.

Lemma occurrences_notin (x : string) (l : list string) :
  x ∉ l → occurrences x l = 0.
Proof.
  unfold occurrences. induction l as [|y l IH]; intros Hx; [done|].
  apply not_elem_of_cons in Hx as [Hxy Hx].
  rewrite filter_cons, decide_False by done. by apply IH.
Qed.

Lemma occurrences_NoDup (x : string) (l : list string) :
  NoDup l → x ∈ l → occurrences x l = 1.
Proof.
  induction 1 as [|y l Hy Hnd IH]; intros Hx.
  - by apply elem_of_nil in Hx.
  - unfold occurrences. rewrite filter_cons.
    apply elem_of_cons in Hx as [->|Hx].
    + rewrite decide_True by done. simpl. f_equal. by apply occurrences_notin.
    + rewrite decide_False; [by apply IH|]. intros ->. done.
Qed.

(** What a step leaves a source to do is what it had to do or the rest
    of it. *)
Lemma elem_of_insert_source srcs i o o' acts :
  srcs !! i = Some o → Some acts ∈ <[i := o']> srcs →
  Some acts ∈ srcs ∨ o' = Some acts.
Proof.
  intros Hi Hin. destruct (insert_split _ _ _ Hi) as (pre & post & -> & Hins).
  rewrite Hins in Hin. rewrite elem_of_app, elem_of_cons in Hin.
  rewrite elem_of_app, elem_of_cons. naive_solver.
Qed.

Lemma sources_step l s s' acts :
  step l s = Next s' → Some acts ∈ sources s' →
  Some acts ∈ sources s ∨ ∃ a, Some (a :: acts) ∈ sources s.
Proof.
  destruct s as [srcs wg ch cl inf sn hin hcl].
  destruct l as [i| | |i]; simpl.
  - destruct (srcs !! i) as [[[|[sub|name v|] rest]|]|] eqn:Hi; try discriminate.
    + destruct wg; [discriminate|]. intros [= <-] Hin. simpl in Hin.
      destruct (elem_of_insert_source _ _ _ _ _ Hi Hin) as [?|[=]]. by left.
    + destruct cl; [discriminate|]. case_decide; [|discriminate].
      intros [= <-] Hin. simpl in Hin.
      destruct (elem_of_insert_source _ _ _ _ _ Hi Hin) as [?|[= ->]]; [by left|].
      right. exists (Send sub). by eapply list_elem_of_lookup_2.
    + intros [= <-] Hin. simpl in Hin.
      destruct (elem_of_insert_source _ _ _ _ _ Hi Hin) as [?|[= ->]]; [by left|].
      right. exists (Put name v). by eapply list_elem_of_lookup_2.
  - destruct cl; [discriminate|]. destruct wg; [|discriminate].
    intros [= <-] Hin. by left.
  - destruct hcl; [discriminate|]. destruct ch as [|sub rest].
    + destruct cl; [|discriminate]. intros [= <-] Hin. by left.
    + case_bool_decide; intros [= <-] Hin; by left.
  - destruct (srcs !! i) as [[[|[sub|name v|] rest]|]|] eqn:Hi; try discriminate.
    intros [= <-] Hin. simpl in Hin.
    destruct (elem_of_insert_source _ _ _ _ _ Hi Hin) as [?|[= ->]]; [by left|].
    right. exists Wait. by eapply list_elem_of_lookup_2.
Qed.

Lemma sources_run ls : ∀ s s' acts,
  run ls s = Some s' → Some acts ∈ sources s' →
  ∃ pre, Some (pre ++ acts) ∈ sources s.
Proof.
  induction ls as [|l ls IH]; intros s s' acts; simpl.
  - intros [= <-] Hin. by exists [].
  - destruct (step l s) as [| |s1] eqn:Hs; try discriminate.
    intros Hr Hin. destruct (IH _ _ _ Hr Hin) as (pre & Hpre).
    destruct (sources_step _ _ _ _ Hs Hpre) as [H1|[a Ha]].
    + by exists pre.
    + by exists (a :: pre).
Qed.

Lemma wait_last_app pre acts :
  wait_last (pre ++ acts) = true → wait_last acts = true.
Proof.
  induction pre as [|[x|k v|] pre IH]; simpl; try done.
  destruct (pre ++ acts) as [|a r] eqn:Happ; [|discriminate].
  apply app_eq_nil in Happ as [_ ->]. done.
Qed.

Lemma wait_last_snoc acts : Wait ∉ acts → wait_last (acts ++ [Wait]) = true.
Proof.
  induction acts as [|[x|k v|] acts IH]; simpl; intros Hw; try done.
  - apply IH. intros ?. apply Hw. by apply list_elem_of_further.
  - apply IH. intros ?. apply Hw. by apply list_elem_of_further.
  - destruct Hw. apply list_elem_of_here.
Qed.

Lemma wait_last_discovery useDeep sf am p :
  p ∈ discovery useDeep sf am → wait_last p = true.
Proof.
  assert (wait_last (subfinder sf) = true) as Hsf.
  { destruct sf as [| |lines]; try done. apply wait_last_snoc.
    intros (x & [=] & _)%list_elem_of_fmap. }
  assert (wait_last (amass am) = true) as Ham.
  { destruct am as [| |lines]; try done. apply wait_last_snoc.
    intros (l & Hin & _)%list_elem_of_bind. unfold amass_line in Hin.
    destruct (unmarshal_AmassResult l) as [ar|]; [|by apply elem_of_nil in Hin].
    case_decide; [|by apply elem_of_nil in Hin].
    apply elem_of_cons in Hin as [[=]|Hin].
    destruct (elems _); [by apply elem_of_nil in Hin|].
    by apply list_elem_of_singleton in Hin. }
  unfold discovery. destruct useDeep; rewrite ?elem_of_cons, ?elem_of_nil;
    naive_solver.
Qed.

Lemma parked_or srcs :
  (∀ o, o ∈ srcs → parked o = true) ∨
  ∃ i o, srcs !! i = Some o ∧ parked o = false.
Proof.
  induction srcs as [|o srcs [IH|(i & o' & Hi & Hp)]].
  - left. intros o Ho. by apply elem_of_nil in Ho.
  - destruct (parked o) eqn:Hp.
    + left. intros o' [->|Ho']%elem_of_cons; auto.
    + right. by exists 0, o.
  - right. by exists (S i), o'.
Qed.

Lemma pending_parked srcs :
  (∀ o, o ∈ srcs → parked o = true) →
  (∀ acts, Some acts ∈ srcs → wait_last acts = true) →
  pending srcs = [].
Proof.
  induction srcs as [|o srcs IH]; intros Hp Hw; [done|].
  rewrite pending_cons, IH.
  - rewrite app_nil_r. specialize (Hp o (list_elem_of_here _ _)).
    destruct o as [[|[x|k v|] rest]|]; try done.
    specialize (Hw _ (list_elem_of_here _ _)). simpl in Hw.
    by destruct rest.
  - intros o' Ho'. apply Hp. by apply list_elem_of_further.
  - intros acts Hacts. apply Hw. by apply list_elem_of_further.
Qed.

(** As long as the channel holds an identifier or a source has something
    to do other than wait for its tool, a goroutine can move. *)
Lemma goroutine_progress progs s :
  Inv progs s →
  subdomains s ≠ [] ∨ (∃ i o, sources s !! i = Some o ∧ parked o = false) →
  ∃ l s', is_goroutine l = true ∧ step l s = Next s'.
Proof.
  intros [Hwg Hcl Heof Hnd Hseen Hflow].
  destruct s as [srcs wg ch cl inf sn hin hcl]. simpl in *.
  assert (ch ≠ [] → ∃ l s', is_goroutine l = true ∧
            step l (mkState srcs wg ch cl inf sn hin hcl) = Next s') as Hfeed.
  { intros Hch. exists Feed. simpl. destruct hcl.
    - by destruct (Heof eq_refl) as [_ ?].
    - destruct ch as [|sub rest]; [done|]. case_bool_decide; eauto. }
  intros [Hch|(i & o & Hi & Hp)]; [by apply Hfeed|].
  destruct ch as [|sub0 rest0]; [|by apply Hfeed].
  destruct (insert_split _ _ _ Hi) as (pre & post & Heq & _).
  assert (o ≠ None → wg ≠ 0 ∧ cl = false) as Hrun.
  { intros Ho. assert (wg ≠ 0) as Hwg0.
    { rewrite Hwg, Heq, running_app, running_cons. destruct o; [lia|done]. }
    split; [done|]. destruct cl; [|done]. by specialize (Hcl eq_refl). }
  exists (Source i). simpl. rewrite Hi.
  destruct o as [[|[x|k v|] rest]|]; try discriminate.
  - destruct Hrun as [Hwg0 _]; [done|]. destruct wg; [done|]. eauto.
  - destruct Hrun as [_ ->]; [done|]. eauto.
  - eauto.
Qed.

(** From every reachable state the goroutines alone, whether or not a
    tool exits, run until the channel is empty and every source has
    returned or waits for its tool. *)
Lemma drains progs n : ∀ s,
  Inv progs s → measure s ≤ n →
  ∃ ls s', run ls s = Some s' ∧ Forall (λ l, is_goroutine l = true) ls ∧
           subdomains s' = [] ∧ ∀ o, o ∈ sources s' → parked o = true.
Proof.
  induction n as [|n IH]; intros s HI Hm.
  - destruct (subdomains s) as [|x ch] eqn:Hch.
    + destruct (parked_or (sources s)) as [Hp|Hnp]; [by exists [], s|].
      destruct (goroutine_progress _ _ HI (or_intror Hnp)) as (l & s1 & _ & Hs).
      apply measure_step in Hs. lia.
    + unfold measure in Hm. rewrite Hch in Hm. simpl in Hm. lia.
  - assert (subdomains s ≠ [] ∨
            (∃ i o, sources s !! i = Some o ∧ parked o = false) ∨
            (subdomains s = [] ∧ ∀ o, o ∈ sources s → parked o = true)) as Hcase.
    { destruct (subdomains s); [|by left]. right.
      destruct (parked_or (sources s)); auto. }
    destruct Hcase as [Hc|[Hc|[Hch Hp]]].
    3: by exists [], s.
    all: destruct (goroutine_progress _ _ HI) as (l & s1 & Hl & Hs); [by auto|];
      destruct (IH s1) as (ls & s' & Hr & Hg & Hd);
        [by eapply Inv_step|apply measure_step in Hs; lia|];
      exists (l :: ls), s'; simpl; rewrite Hs; split; [done|];
      split; [by constructor|done].
Qed.

End fan_in.

(** What the two sources send: every line of subfinder's output, and
    the name of every line of Amass's that decodes to a non-empty name. *)
Lemma sends_wait acts : sends (acts ++ [Wait]) = sends acts.
Proof. unfold sends. rewrite omap_app. simpl. apply app_nil_r. Qed.

Lemma sends_subfinder lines : sends (subfinder (Started lines)) = lines.
Proof.
  unfold subfinder. rewrite sends_wait. unfold sends.
  induction lines as [|l lines IH]; [done|].
  simpl. by f_equal.
Qed.

Lemma sends_amass lines x :
  x ∈ sends (amass (Started lines)) ↔
  ∃ l ar, l ∈ lines ∧ unmarshal_AmassResult l = Some ar ∧
          AmassResult.Name ar = x ∧ x ≠ "".
Proof.
  unfold amass. rewrite sends_wait. unfold sends. rewrite list_elem_of_omap. split.
  - intros (a & Ha & Hx). apply list_elem_of_bind in Ha as (l & Ha & Hl).
    exists l. unfold amass_line in Ha.
    destruct (unmarshal_AmassResult l) as [ar|]; [|by apply elem_of_nil in Ha].
    exists ar. case_decide as Hn; [|by apply elem_of_nil in Ha].
    apply elem_of_cons in Ha as [->|Ha]; [by simplify_eq/=|].
    destruct (elems _); [by apply elem_of_nil in Ha|].
    apply list_elem_of_singleton in Ha as ->. discriminate.
  - intros (l & ar & Hl & Hdec & <- & Hn). exists (Send (AmassResult.Name ar)).
    split; [|done]. apply list_elem_of_bind. exists l. split; [|done].
    unfold amass_line. rewrite Hdec, decide_True by done. apply list_elem_of_here.
Qed.

(** What the scanner yields is the beginning of the output's lines, and
    all of them when none is too long. *)
Lemma tokens_prefix max ls : tokens max ls `prefix_of` (dropCR <$> ls).
Proof.
  induction ls as [|l ls IH]; simpl; [done|].
  destruct (N.of_nat (String.length l) <? max)%N.
  - by apply prefix_cons.
  - apply prefix_nil.
Qed.

Lemma tokens_all max ls :
  (∀ l, l ∈ ls → (N.of_nat (String.length l) < max)%N) →
  tokens max ls = dropCR <$> ls.
Proof.
  induction ls as [|l ls IH]; intros Hall; simpl; [done|].
  specialize (Hall l (list_elem_of_here _ _)) as Hl.
  apply N.ltb_lt in Hl. rewrite Hl. f_equal. apply IH.
  intros l' Hl'. apply Hall. by apply list_elem_of_further.
Qed.

(** The identifiers the source goroutines send, by what their tools
    print. *)
Lemma emitted_discovery useDeep sf am x :
  x ∈ emitted (discovery useDeep (scanned sf) (scanned am)) ↔
  (∃ out, sf = Prints out ∧ x ∈ Scan MaxScanTokenSize out) ∨
  (useDeep = true ∧
   ∃ out l ar, am = Prints out ∧ l ∈ Scan MaxScanTokenSize out ∧
               unmarshal_AmassResult l = Some ar ∧
               AmassResult.Name ar = x ∧ x ≠ "").
Proof.
  assert (x ∈ sends (subfinder (scanned sf)) ↔
          ∃ out, sf = Prints out ∧ x ∈ Scan MaxScanTokenSize out) as Hsf.
  { destruct sf as [err|err|out]; cbn [scanned].
    - change (sends (subfinder (PipeError err))) with (@nil string).
      rewrite elem_of_nil. naive_solver.
    - change (sends (subfinder (StartError err))) with (@nil string).
      rewrite elem_of_nil. naive_solver.
    - rewrite sends_subfinder. naive_solver. }
  assert (x ∈ sends (amass (scanned am)) ↔
          ∃ out l ar, am = Prints out ∧ l ∈ Scan MaxScanTokenSize out ∧
                      unmarshal_AmassResult l = Some ar ∧
                      AmassResult.Name ar = x ∧ x ≠ "") as Ham.
  { destruct am as [err|err|out]; cbn [scanned].
    - change (sends (amass (PipeError err))) with (@nil string).
      rewrite elem_of_nil. naive_solver.
    - change (sends (amass (StartError err))) with (@nil string).
      rewrite elem_of_nil. naive_solver.
    - rewrite sends_amass. naive_solver. }
  unfold discovery. destruct useDeep.
  - change (emitted [subfinder (scanned sf); amass (scanned am)])
      with (sends (subfinder (scanned sf)) ++ sends (amass (scanned am)) ++ []).
    rewrite !elem_of_app, elem_of_nil, Hsf, Ham. naive_solver.
  - change (emitted [subfinder (scanned sf)])
      with (sends (subfinder (scanned sf)) ++ []).
    rewrite !elem_of_app, elem_of_nil, Hsf. naive_solver.
Qed.

(** C1 (amended). The identifiers in question are those the scanners of
    the source goroutines yield: the lines subfinder prints, and the
    non-empty names of the lines of Amass that decode, up to the first
    line of 65536 bytes or more of each tool (all the lines when none is
    that long). However the goroutines are scheduled, the lines the
    feeder has written to httpx's stdin never repeat and are all among
    these identifiers; once the feeder has closed stdin, each of them is
    there exactly once; whether or not the tools exit, the goroutines
    can always run on until each of them is there exactly once; and once
    the tools have exited they can run on until stdin is closed. *)
Theorem feeder_writes_each_identifier_once useDeep sf am ls s :
  run ls (init (discovery useDeep (scanned sf) (scanned am))) = Some s →
  let progs := discovery useDeep (scanned sf) (scanned am) in
  (∀ x, x ∈ emitted progs ↔
        (∃ out, sf = Prints out ∧ x ∈ Scan MaxScanTokenSize out) ∨
        (useDeep = true ∧
         ∃ out l ar, am = Prints out ∧ l ∈ Scan MaxScanTokenSize out ∧
                     unmarshal_AmassResult l = Some ar ∧
                     AmassResult.Name ar = x ∧ x ≠ "")) ∧
  (∀ out, Scan MaxScanTokenSize out `prefix_of` (dropCR <$> lines_of out) ∧
          ((∀ l, l ∈ lines_of out →
                 (N.of_nat (String.length l) < MaxScanTokenSize)%N) →
           Scan MaxScanTokenSize out = dropCR <$> lines_of out)) ∧
  NoDup (httpxIn s) ∧
  (∀ x, x ∈ httpxIn s → x ∈ emitted progs) ∧
  (httpxIn_closed s = true →
     ∀ x, x ∈ emitted progs → x ∈ httpxIn s ∧ occurrences x (httpxIn s) = 1) ∧
  (∃ ls' s', run (ls ++ ls') (init progs) = Some s' ∧
             Forall (λ l, is_goroutine l = true) ls' ∧
             ∀ x, x ∈ emitted progs →
                  x ∈ httpxIn s' ∧ occurrences x (httpxIn s') = 1) ∧
  (∃ ls' s', run (ls ++ ls') (init progs) = Some s' ∧ httpxIn_closed s' = true).
Proof.
  intros Hrun progs. pose proof (reachable_Inv _ _ _ Hrun) as HI.
  destruct HI as [Hwg Hcl Heof Hnd Hseen Hflow] eqn:E. split_and!.
  - apply emitted_discovery.
  - intros out. split; [apply tokens_prefix|apply tokens_all].
  - done.
  - intros x Hx. apply Hflow. by left.
  - intros Hc x Hx. destruct (Heof Hc) as [Hclosed Hch].
    assert (x ∈ httpxIn s) as Hin.
    { apply Hflow in Hx as [Hx|[Hx|Hx]]; [done| |].
      - rewrite Hch in Hx. by apply elem_of_nil in Hx.
      - rewrite pending_none in Hx; [by apply elem_of_nil in Hx|].
        apply running_0. rewrite <- Hwg. by apply Hcl. }
    split; [done|]. by apply occurrences_NoDup.
  - destruct (drains progs (measure s) s) as (ls' & s' & Hr & Hg & Hch & Hp);
      [done..|].
    assert (run (ls ++ ls') (init progs) = Some s') as Hrun'
      by (by rewrite (run_app _ _ _ _ Hrun)).
    exists ls', s'. split_and!; [done..|]. intros x Hx.
    pose proof (reachable_Inv _ _ _ Hrun') as HI'.
    assert (x ∈ httpxIn s') as Hin.
    { apply (inv_flow _ _ HI') in Hx as [Hx|[Hx|Hx]]; [done| |].
      - rewrite Hch in Hx. by apply elem_of_nil in Hx.
      - rewrite pending_parked in Hx; [by apply elem_of_nil in Hx|done|].
        intros acts Hacts.
        destruct (sources_run _ _ _ _ Hrun' Hacts) as (pre & Hpre).
        change (sources (init progs)) with (Some <$> progs) in Hpre.
        apply list_elem_of_fmap in Hpre as (p & [= <-] & Hp').
        apply wait_last_discovery in Hp'. by eapply wait_last_app. }
    split; [done|]. apply occurrences_NoDup; [|done]. apply (inv_nodup _ _ HI').
  - destruct (completes progs (measure s) s) as (ls' & s' & Hr & Hc); [done..|].
    exists ls', s'. by rewrite (run_app _ _ _ _ Hrun).
Qed.

Lemma feeder_writes_each_identifier_once_witness :
  ∃ s, run demo_schedule
         (init (discovery true (scanned demo_subfinder_tool)
                  (scanned demo_amass_tool))) = Some s ∧
       httpxIn s = ["a.example.com"; "b.example.com"; "c.example.com"] ∧
       httpxIn_closed s = true ∧
       NoDup (httpxIn s) ∧
       (∀ x, x ∈ emitted (discovery true (scanned demo_subfinder_tool)
                            (scanned demo_amass_tool)) →
             x ∈ httpxIn s ∧ occurrences x (httpxIn s) = 1).
Proof.
  eexists. split; [vm_compute; reflexivity|].
  split; [reflexivity|]. split; [reflexivity|].
  destruct (feeder_writes_each_identifier_once true demo_subfinder_tool
              demo_amass_tool demo_schedule _ ltac:(vm_compute; reflexivity))
    as (_ & _ & Hnd & _ & Hall & _).
  split; [exact Hnd|]. apply Hall. reflexivity.
Defined.

(** C1 as stated fails when a tool prints a line of 65536 bytes or more:
    subfinder prints a.example.com, a line of 70000 bytes and
    b.example.com; the scanner stops at the long line, so b.example.com,
    a line of subfinder's output, is written to httpx's stdin in no
    schedule, and stdin is closed with a.example.com alone. *)
Lemma identifier_after_long_line_is_dropped :
  (λ l, N.of_nat (String.length l)) <$> lines_of long_output = [13; 70000; 13]%N ∧
  lines_of long_output !! 2 = Some "b.example.com" ∧
  Scan MaxScanTokenSize long_output = ["a.example.com"] ∧
  (∀ ls s,
     run ls (init (discovery false (scanned (Prints long_output))
                     (scanned (StartFails "exec: amass: not found")))) = Some s →
     "b.example.com" ∉ httpxIn s) ∧
  ∃ s, run [Source 0; Feed; Exits 0; Source 0; Coord; Feed]
         (init (discovery false (scanned (Prints long_output))
                  (scanned (StartFails "exec: amass: not found")))) = Some s ∧
       httpxIn_closed s = true ∧ httpxIn s = ["a.example.com"].
Proof.
  split_and!.
  - vm_compute. reflexivity.
  - vm_compute. reflexivity.
  - vm_compute. reflexivity.
  - assert (emitted (discovery false (scanned (Prints long_output))
                       (scanned (StartFails "exec: amass: not found")))
            = ["a.example.com"]) as Heq by (vm_compute; reflexivity).
    revert Heq.
    generalize (discovery false (scanned (Prints long_output))
                  (scanned (StartFails "exec: amass: not found"))).
    intros progs Heq ls s Hrun Hin.
    pose proof (reachable_Inv _ _ _ Hrun) as HI.
    assert ("b.example.com" ∈ emitted progs) as He.
    { apply (inv_flow _ _ HI). left. exact Hin. }
    rewrite Heq in He. apply list_elem_of_singleton in He. discriminate He.
  - eexists. split; [vm_compute; reflexivity|]. split; reflexivity.
Qed.

(** C2. In every state the goroutines can reach: if the channel is closed,
    every source goroutine has returned; if httpx's stdin is closed, the
    channel is closed and empty, every source has returned and no
    goroutine can move any more. The step that closes the channel starts
    from a state where all sources have returned, the step that closes
    stdin from one where the channel is closed and drained. No step
    panics. *)
Theorem close_only_after_sources progs ls s :
  run ls (init progs) = Some s →
  (closed s = true → ∀ o, o ∈ sources s → o = None) ∧
  (httpxIn_closed s = true →
     closed s = true ∧ subdomains s = [] ∧
     (∀ o, o ∈ sources s → o = None) ∧ ∀ l, step l s = Blocked) ∧
  (∀ s', step Coord s = Next s' → ∀ o, o ∈ sources s → o = None) ∧
  (∀ s', step Feed s = Next s' → httpxIn_closed s' = true →
         closed s = true ∧ subdomains s = []) ∧
  (∀ l, step l s ≠ Panic).
Proof.
  intros Hrun. pose proof (reachable_Inv _ _ _ Hrun) as HI.
  assert (closed s = true → ∀ o, o ∈ sources s → o = None) as Hsrc.
  { intros Hc. apply running_0. rewrite <- (inv_wg _ _ HI).
    by apply (inv_closed _ _ HI). }
  split_and!.
  - done.
  - intros Hc. destruct (inv_eof _ _ HI Hc) as [Hcl Hch]. split_and!; auto.
    intros l. destruct (step l s) as [| |s'] eqn:Hs; [done| |].
    + by apply no_panic with (progs := progs) in Hs.
    + apply measure_step in Hs. unfold measure at 1 in Hs.
      rewrite Hc, Hcl, Hch in Hs. simpl in Hs.
      assert (sum_list (weight <$> sources s) = 0) as Hz; [|lia].
      specialize (Hsrc Hcl). clear -Hsrc.
      induction (sources s) as [|o srcs IH]; [done|].
      rewrite fmap_cons, (Hsrc o) by apply list_elem_of_here. simpl.
      apply IH. intros o' Ho'. apply Hsrc. by apply list_elem_of_further.
  - intros s' Hs. apply running_0. rewrite <- (inv_wg _ _ HI).
    destruct s as [srcs wg ch cl inf sn hin hcl]. simpl in *.
    destruct cl; [discriminate|]. by destruct wg.
  - intros s' Hs Hc'.
    destruct s as [srcs wg ch cl inf sn hin hcl]. simpl in *.
    destruct hcl; [discriminate|]. destruct ch as [|sub rest].
    + by destruct cl.
    + case_bool_decide; injection Hs as <-; discriminate Hc'.
  - intros l. by eapply no_panic.
Qed.

Lemma close_only_after_sources_witness :
  ∃ s, run demo_schedule (init (discovery true demo_subfinder demo_amass)) = Some s ∧
       closed s = true ∧ httpxIn_closed s = true ∧
       (closed s = true → ∀ o, o ∈ sources s → o = None) ∧
       (httpxIn_closed s = true →
          closed s = true ∧ subdomains s = [] ∧
          (∀ o, o ∈ sources s → o = None) ∧ ∀ l, step l s = Blocked) ∧
       (∀ s', step Coord s = Next s' → ∀ o, o ∈ sources s → o = None) ∧
       (∀ s', step Feed s = Next s' → httpxIn_closed s' = true →
              closed s = true ∧ subdomains s = []) ∧
       (∀ l, step l s ≠ Panic).
Proof.
  eexists. split; [vm_compute; reflexivity|].
  split; [reflexivity|]. split; [reflexivity|].
  apply (close_only_after_sources
           (discovery true demo_subfinder demo_amass) demo_schedule).
  vm_compute. reflexivity.
Defined.

(** ** Timestamps *)

Section timestamps.

Lemma mod10_lt n : (n `mod` 10 < 10)%N.
Proof. by apply N.mod_lt. Qed.

Lemma N_of_digit n : N_of_ascii (digit n) = (48 + n `mod` 10)%N.
Proof.
  unfold digit. apply N_ascii_embedding.
  pose proof (mod10_lt n) as Hk. revert Hk.
  generalize (n `mod` 10)%N. intros k Hk. lia.
Qed.

Lemma is_digit_digit n : Json.is_digit (digit n) = true.
Proof.
  unfold Json.is_digit. rewrite N_of_digit.
  pose proof (mod10_lt n) as Hk. revert Hk.
  generalize (n `mod` 10)%N. intros k Hk.
  apply andb_true_intro; split; apply N.leb_le; lia.
Qed.

Lemma val2_pad n : (n < 100)%N → val2 (digit (n `div` 10)) (digit n) = n.
Proof.
  intros Hn. unfold val2. rewrite !N_of_digit.
  rewrite (N.mod_small (n `div` 10) 10) by (apply N.Div0.div_lt_upper_bound; lia).
  pose proof (N.div_mod n 10 ltac:(done)) as Hdm. revert Hdm.
  generalize (n `mod` 10)%N (n `div` 10)%N. intros r q Hdm. lia.
Qed.

Lemma two_digits_pad n lo hi :
  (lo ≤ n ≤ hi)%N → (n < 100)%N →
  two_digits (digit (n `div` 10)) (digit n) lo hi = true.
Proof.
  intros [Hlo Hhi] Hn. unfold two_digits.
  rewrite !is_digit_digit, val2_pad by done. simpl.
  apply andb_true_intro; split; apply N.leb_le; done.
Qed.

Lemma wf_zone_zone o : (- 1440 < o < 1440)%Z → wf_zone (zone o) = true.
Proof.
  intros Ho. unfold zone. case_decide as Hz; [done|].
  set (m := Z.to_N (Z.abs o)).
  assert (m < 1440)%N as Hm by (unfold m; lia).
  assert (m `div` 60 < 24)%N as Hq by (apply N.Div0.div_lt_upper_bound; lia).
  assert (m `mod` 60 < 60)%N as Hr by (by apply N.mod_lt).
  revert Hq Hr. generalize (m `div` 60)%N (m `mod` 60)%N. intros q r Hq Hr.
  case_decide; simpl; rewrite !two_digits_pad by lia; done.
Qed.

Lemma Format_RFC3339_wf i :
  Instant.valid i → wf_RFC3339 (Format_RFC3339 i) = true.
Proof.
  destruct i as [y mo d h mi sec o].
  intros [(Hy & Hmo & Hd & Hh & Hmi & Hs) Ho]. simpl in *.
  unfold Format_RFC3339, pad4, pad2. simpl.
  change ("" +:+ zone o) with (zone o).
  rewrite !is_digit_digit, !two_digits_pad, wf_zone_zone by lia. done.
Qed.

End timestamps.

(** ** The loop over httpx's output *)

(** Looking a member up in an encoded Result: the fixed members
    compute, the omitempty ones are settled by cases. *)
Ltac lookup_cases :=
  unfold omitempty_string, omitempty_map;
  repeat first [case_decide | case_match]; simplify_eq/=; try done.

Section records.
Implicit Types (it : Iteration) (hRes : HttpxResult) (res : Result).

Lemma lookup_asn res :
  Json.lookup_field "asn" (encode_Result res)
  = if decide (Result.Asn res = "") then None else Some (Json.Str (Result.Asn res)).
Proof. destruct res as [ts sub sc ti te vu so asn org ve]. simpl. lookup_cases. Qed.

Lemma lookup_org res :
  Json.lookup_field "org" (encode_Result res)
  = if decide (Result.Org res = "") then None else Some (Json.Str (Result.Org res)).
Proof. destruct res as [ts sub sc ti te vu so asn org ve]. simpl. lookup_cases. Qed.

Lemma lookup_versions_None res :
  Result.Versions res = None →
  Json.lookup_field "versions" (encode_Result res) = None.
Proof.
  destruct res as [ts sub sc ti te vu so asn org ve]. simpl. intros ->.
  lookup_cases.
Qed.

Lemma Sprintf_AS_nonempty n : Sprintf_AS n ≠ "".
Proof. done. Qed.

Lemma join_same_base m hRes res : same_base res (join m hRes res).
Proof. unfold join. destruct (m !! _); by destruct res. Qed.

Lemma join_enrichment m hRes res :
  Result.TechStack (join m hRes res) = Result.TechStack res ∧
  Result.Versions (join m hRes res) = Result.Versions res.
Proof. unfold join. destruct (m !! _); by destruct res. Qed.

Lemma fingerprint_spec it hRes res :
  ∃ res', fingerprint it hRes res
          = ([Exec (whatweb_argv (HttpxResult.Url hRes))], Some res') ∧
          same_base res res' ∧
          Result.Asn res' = Result.Asn res ∧ Result.Org res' = Result.Org res ∧
          (enrichment_fails it → res' = res).
Proof.
  unfold fingerprint, enrichment_fails.
  destruct (wwOut it) as [out|]; [|by exists res].
  destruct (unmarshal_WhatWebResults out) as [ww|]; [|by exists res].
  destruct (elems ww) as [|w0 ?]; [by exists res|].
  eexists. split; [reflexivity|]. by destruct res.
Qed.

(** The shape of one iteration on a line that decodes: the whatweb call
    if there is one, then the Encode of a record that agrees with the
    joined one outside tech_stack and versions, and is the joined one
    when there is no enrichment or it fails. *)
Lemma process_line_spec fp it hRes :
  unmarshal_HttpxResult (line it) = Some hRes →
  let res := join (infraMap it) hRes (new_Result (now it) hRes) in
  let live := fp && bool_decide (0 < HttpxResult.StatusCode hRes)%Z in
  ∃ res', process_line fp it
          = ((if live then [Exec (whatweb_argv (HttpxResult.Url hRes))] else [])
               ++ trace (Encode it res'), Some tt) ∧
          same_base res res' ∧
          Result.Asn res' = Result.Asn res ∧ Result.Org res' = Result.Org res ∧
          (live = false ∨ enrichment_fails it → res' = res).
Proof.
  intros Hdec res live. unfold process_line. rewrite Hdec. fold res live.
  destruct live eqn:Hlive.
  - destruct (fingerprint_spec it hRes res) as (res' & -> & Hb & Ha & Ho & Hf).
    exists res'. split_and!; try done.
    + unfold Encode. by destruct (encode_err it).
    + intros [?|?]; [done|auto].
  - exists res. split_and!; try done.
    unfold Encode. by destruct (encode_err it).
Qed.

End records.

(** C3 (amended). For a line of httpx that decodes and is encoded without
    error, the emitted record carries the identifier as subdomain; if the
    infrastructure map holds an entry for it when the loop looks it up,
    asn is AS followed by the entry's network number in decimal (so never
    empty) and is in the JSON, and org is the entry's organization, in
    the JSON unless that organization is the empty string; if the map
    holds no entry, neither asn nor org is in the JSON. *)
Theorem join_sets_asn_org fp it hRes :
  unmarshal_HttpxResult (line it) = Some hRes →
  encode_err it = None →
  ∃ res, stdout_of (trace (process_line fp it)) = [encode_Result res] ∧
    Result.Subdomain res = HttpxResult.Input hRes ∧
    match infraMap it !! HttpxResult.Input hRes with
    | Some inf =>
        Result.Asn res = "AS" +:+ pretty (Infrastructure.Asn inf) ∧
        Result.Org res = Infrastructure.Org inf ∧
        Json.lookup_field "asn" (encode_Result res)
          = Some (Json.Str ("AS" +:+ pretty (Infrastructure.Asn inf))) ∧
        Json.lookup_field "org" (encode_Result res)
          = (if decide (Infrastructure.Org inf = "") then None
             else Some (Json.Str (Infrastructure.Org inf)))
    | None =>
        Json.lookup_field "asn" (encode_Result res) = None ∧
        Json.lookup_field "org" (encode_Result res) = None
    end.
Proof.
  intros Hdec Herr.
  destruct (process_line_spec fp it hRes Hdec) as (res & Hpl & Hb & Ha & Ho & _).
  exists res. rewrite Hpl. unfold Encode. rewrite Herr. split_and!.
  - by destruct (fp && _).
  - destruct Hb as (_ & -> & _).
    by destruct (join_same_base (infraMap it) hRes (new_Result (now it) hRes))
      as (_ & -> & _).
  - rewrite lookup_asn, lookup_org, Ha, Ho. unfold join.
    destruct (infraMap it !! HttpxResult.Input hRes) as [[n o]|]; simpl.
    + by split_and!.
    + done.
Qed.

Lemma join_sets_asn_org_witness :
  ∃ res, stdout_of (trace (process_line false (demo_iteration spec_line demo_infra None)))
         = [encode_Result res] ∧
         Result.Subdomain res = "a.example.com" ∧
         Result.Asn res = "AS13335" ∧ Result.Org res = "CLOUDFLARENET" ∧
         Json.lookup_field "asn" (encode_Result res) = Some (Json.Str "AS13335") ∧
         Json.lookup_field "org" (encode_Result res) = Some (Json.Str "CLOUDFLARENET").
Proof.
  destruct (join_sets_asn_org false (demo_iteration spec_line demo_infra None)
              (HttpxResult.mk "a.example.com" "https://a.example.com" 200 "T"
                 (Some ["nginx"]) ""))
    as (res & Hout & Hsub & Hrest); [vm_compute; reflexivity|reflexivity|].
  exists res. exact (conj Hout (conj Hsub Hrest)).
Defined.

(** C3 as stated fails on an entry whose organization is empty: Amass
    reports an address without a description, the entry is stored, and
    the record for that identifier has an asn but no org member. *)
Lemma stored_entry_without_org :
  ∃ s, run [Source 1; Source 1] (init (discovery true (Started []) amass_no_desc))
       = Some s ∧
       infra s !! "a.example.com" = Some (Infrastructure.mk 13335 "") ∧
       ∃ v, stdout_of (trace (process_line false
                                (demo_iteration spec_line (infra s) None))) = [v] ∧
            Json.lookup_field "subdomain" v = Some (Json.Str "a.example.com") ∧
            Json.lookup_field "asn" v = Some (Json.Str "AS13335") ∧
            Json.lookup_field "org" v = None.
Proof.
  eexists. split; [vm_compute; reflexivity|]. split; [vm_compute; reflexivity|].
  eexists. split; [vm_compute; reflexivity|].
  split_and!; vm_compute; reflexivity.
Qed.

(** ** Enrichment *)

Section enrichment.
Implicit Types (tech : slice string) (order : list string).

Lemma found_elem (l : list string) p : found l p = true ↔ p ∈ l.
Proof.
  induction l as [|t l IH]; simpl.
  - rewrite elem_of_nil. split; [discriminate|done].
  - rewrite elem_of_cons. case_decide; naive_solver.
Qed.

Lemma merge_plugin_old tech p : p ∈ elems tech → merge_plugin tech p = tech.
Proof. intros Hp. unfold merge_plugin. by apply found_elem in Hp as ->. Qed.

Lemma merge_plugin_new tech p :
  p ∉ elems tech → merge_plugin tech p = Some (elems tech ++ [p]).
Proof.
  intros Hp. unfold merge_plugin.
  destruct (found (elems tech) p) eqn:Hf; [|done]. by apply found_elem in Hf.
Qed.

(** The merge appends, to the tech stack as it was, names that were not
    in it and are among the ones visited, each once. *)
Lemma merge_plugins_appends order : ∀ tech,
  ∃ added, elems (merge_plugins tech order) = elems tech ++ added ∧
           NoDup added ∧
           (∀ x, x ∈ added ↔ x ∈ order ∧ x ∉ elems tech) ∧
           (added = [] → merge_plugins tech order = tech).
Proof.
  induction order as [|p order IH]; intros tech; simpl.
  - exists []. rewrite app_nil_r. split_and!; [done|constructor| |done].
    intros x. rewrite !elem_of_nil. naive_solver.
  - destruct (decide (p ∈ elems tech)) as [Hp|Hp].
    + rewrite merge_plugin_old by done.
      destruct (IH tech) as (added & He & Hnd & Hin & Hnil).
      exists added. split_and!; [done..| |done].
      intros x. rewrite Hin, elem_of_cons. naive_solver.
    + rewrite merge_plugin_new by done.
      destruct (IH (Some (elems tech ++ [p]))) as (added & He & Hnd & Hin & _).
      simpl in He, Hin. exists (p :: added). split_and!.
      * by rewrite He, <- app_assoc.
      * apply NoDup_cons. split; [|done]. rewrite Hin, elem_of_app.
        rewrite list_elem_of_singleton. naive_solver.
      * intros x. rewrite !elem_of_cons, Hin, elem_of_app, list_elem_of_singleton.
        destruct (decide (x = p)); naive_solver.
      * discriminate.
Qed.

Lemma merge_plugins_fixed tech order :
  (∀ x, x ∈ order → x ∈ elems tech) → merge_plugins tech order = tech.
Proof.
  intros Hall. destruct (merge_plugins_appends order tech)
    as (added & _ & _ & Hin & Hnil).
  apply Hnil. destruct added as [|x added]; [done|].
  destruct (Hin x) as [[Hx Hn] _]; [apply list_elem_of_here|].
  exfalso. apply Hn, Hall, Hx.
Qed.

Lemma merge_plugins_twice tech o1 o2 :
  (∀ x, x ∈ o2 → x ∈ o1) →
  merge_plugins (merge_plugins tech o1) o2 = merge_plugins tech o1.
Proof.
  intros Hsub. apply merge_plugins_fixed. intros x Hx.
  destruct (merge_plugins_appends o1 tech) as (added & -> & _ & Hin & _).
  rewrite elem_of_app, Hin. apply Hsub in Hx.
  destruct (decide (x ∈ elems tech)); auto.
Qed.

(** Running the enrichment again on its own result, with the same output
    of whatweb, gives that result back. *)
Lemma fingerprint_twice it1 it2 hRes res res1 :
  range_ok it1 → range_ok it2 → wwOut it2 = wwOut it1 →
  (fingerprint it1 hRes res).2 = Some res1 →
  (fingerprint it2 hRes res1).2 = Some res1.
Proof.
  intros Hr1 Hr2 Hww. unfold fingerprint. rewrite Hww.
  destruct (wwOut it1) as [out|]; [|done].
  destruct (unmarshal_WhatWebResults out) as [ww|]; [|done].
  destruct (elems ww) as [|w0 ?]; [done|]. simpl. intros [= <-].
  destruct res as [ts sub sc ti te vu so asn org ve]. simpl. do 2 f_equal.
  apply merge_plugins_twice. intros x. by rewrite (Hr1 _), (Hr2 _).
Qed.

Example enrichment_fails_spawn :
  enrichment_fails (demo_iteration live_line demo_infra None).
Proof. exact I. Qed.

Example enrichment_fails_decode :
  enrichment_fails (demo_iteration live_line demo_infra (Some ww_garbage)).
Proof. vm_compute. exact I. Qed.

Example enrichment_fails_empty :
  enrichment_fails (demo_iteration live_line demo_infra (Some ww_empty)).
Proof. vm_compute. reflexivity. Qed.

(** A whatweb output that decodes: the versions are recorded and the new
    plugin names follow the tech stack httpx reported. *)
Example enrichment_merges :
  ∃ v, stdout_of (trace (process_line true
                           (demo_iteration live_line demo_infra (Some ww_found)))) = [v] ∧
       Json.lookup_field "tech_stack" v
         = Some (Json.Arr [Json.Str "nginx"; Json.Str "HTML5"; Json.Str "PHP"]) ∧
       Json.lookup_field "versions" v
         = Some (Json.Obj [("PHP", Json.Str "8.1, 8"); ("nginx", Json.Str "1.18.0")]).
Proof. eexists. split_and!; vm_compute; reflexivity. Qed.

Lemma occurrences_app x (l k : list string) :
  occurrences x (l ++ k) = occurrences x l + occurrences x k.
Proof. unfold occurrences. by rewrite filter_app, length_app. Qed.

Lemma elem_of_keys (plugins : gmap string Plugin.t) x :
  x ∈ (map_to_list plugins).*1 ↔ is_Some (plugins !! x).
Proof.
  rewrite list_elem_of_fmap. split.
  - intros ([k v] & -> & Hkv). apply elem_of_map_to_list in Hkv. by eexists.
  - intros [v Hv]. exists (x, v). split; [done|]. by apply elem_of_map_to_list.
Qed.

End enrichment.

(** C7 (amended). Merging the plugin names of one WhatWeb result into a
    tech stack, in whatever order range visits them: merging again, in
    any order, changes nothing; the merged stack holds the old entries
    and the plugin names; an entry that was there keeps its number of
    occurrences and a new one occurs once, so no duplicate is introduced
    and a duplicate-free stack stays duplicate-free. *)
Theorem merge_plugins_idempotent (plugins : gmap string Plugin.t)
    (tech : slice string) (o1 o2 : list string) :
  o1 ≡ₚ (map_to_list plugins).*1 →
  o2 ≡ₚ (map_to_list plugins).*1 →
  let once := merge_plugins tech o1 in
  merge_plugins once o2 = once ∧
  (∀ x, x ∈ elems once ↔ x ∈ elems tech ∨ is_Some (plugins !! x)) ∧
  (∀ x, x ∈ elems tech → occurrences x (elems once) = occurrences x (elems tech)) ∧
  (∀ x, x ∉ elems tech → is_Some (plugins !! x) → occurrences x (elems once) = 1) ∧
  (NoDup (elems tech) → NoDup (elems once)).
Proof.
  intros H1 H2 once.
  destruct (merge_plugins_appends o1 tech) as (added & He & Hnd & Hin & _).
  fold once in He.
  assert (∀ x, x ∈ o1 ↔ is_Some (plugins !! x)) as Hk1.
  { intros x. by rewrite H1, elem_of_keys. }
  assert (∀ x, x ∈ o2 ↔ is_Some (plugins !! x)) as Hk2.
  { intros x. by rewrite H2, elem_of_keys. }
  split_and!.
  - apply merge_plugins_twice. intros x Hx. by apply Hk1, Hk2.
  - intros x. rewrite He, elem_of_app, Hin, Hk1.
    destruct (decide (x ∈ elems tech)); naive_solver.
  - intros x Hx. rewrite He, occurrences_app, (occurrences_notin x added); [lia|].
    rewrite Hin. naive_solver.
  - intros x Hx Hp. rewrite He, occurrences_app, (occurrences_notin x (elems tech)) by done.
    apply occurrences_NoDup; [done|]. apply Hin. split; [by apply Hk1|done].
  - intros Ht. rewrite He. apply NoDup_app. split_and!; [done| |done].
    intros x Hx. rewrite Hin. naive_solver.
Qed.

Lemma merge_plugins_idempotent_witness :
  let o1 := (map_to_list demo_plugins).*1 in
  let o2 := reverse o1 in
  let once := merge_plugins (Some ["nginx"; "jQuery"]) o1 in
  elems once = ["nginx"; "jQuery"; "HTML5"; "PHP"] ∧
  merge_plugins once o2 = once ∧
  (∀ x, x ∈ elems once ↔ x ∈ ["nginx"; "jQuery"] ∨ is_Some (demo_plugins !! x)) ∧
  (∀ x, x ∈ ["nginx"; "jQuery"] →
        occurrences x (elems once) = occurrences x ["nginx"; "jQuery"]) ∧
  (∀ x, x ∉ ["nginx"; "jQuery"] → is_Some (demo_plugins !! x) →
        occurrences x (elems once) = 1) ∧
  (NoDup ["nginx"; "jQuery"] → NoDup (elems once)).
Proof.
  intros o1 o2 once. split; [vm_compute; reflexivity|].
  apply (merge_plugins_idempotent demo_plugins (Some ["nginx"; "jQuery"]) o1 o2).
  - reflexivity.
  - apply reverse_Permutation.
Defined.

(** C7 as stated fails when httpx reports a technology twice: the tech
    stack starts as httpx's tech array, copied as it is, and the merge
    only looks for the names it is about to add. With tech b, a, b and
    the plugin PHP the merged stack is b, a, b, PHP: merging again
    changes nothing, but the stack is not duplicate-free, and it is the
    tech_stack of the record written. *)
Lemma merged_stack_keeps_duplicates :
  extractTech <$> unmarshal_HttpxResult repeated_tech_line
    = Some (Some ["b"; "a"; "b"]) ∧
  merge_plugins (Some ["b"; "a"; "b"]) ["PHP"] = Some ["b"; "a"; "b"; "PHP"] ∧
  merge_plugins (merge_plugins (Some ["b"; "a"; "b"]) ["PHP"]) ["PHP"]
    = Some ["b"; "a"; "b"; "PHP"] ∧
  ¬ NoDup ["b"; "a"; "b"; "PHP"] ∧
  Json.lookup_field "tech_stack"
    <$> head (stdout_of (trace (process_line true
                (demo_iteration repeated_tech_line ∅ (Some ww_php)))))
    = Some (Some (Json.Arr [Json.Str "b"; Json.Str "a"; Json.Str "b";
                            Json.Str "PHP"])).
Proof.
  split_and!; try (vm_compute; reflexivity).
  rewrite NoDup_cons. intros [Hb _]. apply Hb.
  apply list_elem_of_further, list_elem_of_here.
Qed.

(** C6. On a line that decodes, whatweb is run exactly when
    fingerprinting is enabled and the status code is positive, and then
    once, on the record's URL. The record as built from httpx's line has
    no versions and the tech stack extractTech gives; when whatweb fails
    to start or to exit cleanly, or its output does not decode, or
    decodes to an empty array, that record is what is encoded, with no
    versions member. *)
Theorem enrichment_only_live_and_failsafe fp it hRes :
  unmarshal_HttpxResult (line it) = Some hRes →
  let res := join (infraMap it) hRes (new_Result (now it) hRes) in
  let live := fp && bool_decide (0 < HttpxResult.StatusCode hRes)%Z in
  execs_of (trace (process_line fp it))
    = (if live then [whatweb_argv (HttpxResult.Url hRes)] else []) ∧
  Result.Versions res = None ∧
  Result.TechStack res = extractTech hRes ∧
  (enrichment_fails it →
     process_line fp it
       = ((if live then [Exec (whatweb_argv (HttpxResult.Url hRes))] else [])
            ++ trace (Encode it res), Some tt) ∧
     Json.lookup_field "versions" (encode_Result res) = None).
Proof.
  intros Hdec res live.
  destruct (process_line_spec fp it hRes Hdec) as (res' & Hpl & _ & _ & _ & Hf).
  fold res live in Hpl, Hf.
  destruct (join_enrichment (infraMap it) hRes (new_Result (now it) hRes))
    as [Hte Hve]. fold res in Hte, Hve. simpl in Hte, Hve.
  split_and!; [|done..|].
  - rewrite Hpl. unfold Encode, trace. simpl.
    by destruct live, (encode_err it).
  - intros Hfail. rewrite Hpl, (Hf (or_intror Hfail)).
    split; [done|]. by apply lookup_versions_None.
Qed.

Lemma enrichment_only_live_and_failsafe_witness :
  let it := demo_iteration live_line demo_infra (Some ww_garbage) in
  let res := Result.mk "2026-10-30T09:05:07-05:30" "b.example.com" 301 ""
               (Some ["nginx"]) (Some []) "recon_pipeline" "" "" None in
  execs_of (trace (process_line true it))
    = [["whatweb"; "--aggression"; "3"; "--format=json"; "http://b.example.com"]] ∧
  process_line true it
    = ([Exec ["whatweb"; "--aggression"; "3"; "--format=json"; "http://b.example.com"];
        Stdout (encode_Result res)], Some tt) ∧
  Json.lookup_field "versions" (encode_Result res) = None.
Proof.
  intros it res.
  destruct (enrichment_only_live_and_failsafe true it
              (HttpxResult.mk "b.example.com" "http://b.example.com" 301 ""
                 (Some ["nginx"]) ""))
    as (Hexec & _ & _ & Hfail); [vm_compute; reflexivity|].
  split; [exact Hexec|]. apply Hfail. vm_compute. exact I.
Defined.

(** C8. A line that does not decode is passed over at each of the three
    decode points. From Amass it sends nothing and stores nothing, and
    the other lines are handled as if it were not there. From httpx it
    leaves no trace at all (no record, no diagnostic, no exit) and the
    loop goes on as if it were not there. From whatweb, the call
    returns the record it was given and the process does not exit. *)
Theorem malformed_line_is_skipped :
  (∀ l pre post, unmarshal_AmassResult l = None →
     amass_line l = [] ∧
     amass (Started (pre ++ l :: post)) = amass (Started (pre ++ post))) ∧
  (∀ fp it pre post, unmarshal_HttpxResult (line it) = None →
     process_line fp it = ([], Some tt) ∧
     for_each (pre ++ it :: post) (process_line fp)
       = for_each (pre ++ post) (process_line fp)) ∧
  (∀ it hRes res out, wwOut it = Some out → unmarshal_WhatWebResults out = None →
     fingerprint it hRes res
       = ([Exec (whatweb_argv (HttpxResult.Url hRes))], Some res)).
Proof.
  split_and!.
  - intros l pre post Hl.
    assert (amass_line l = []) as Hnil by (unfold amass_line; by rewrite Hl).
    split; [done|]. unfold amass. by rewrite !bind_app, bind_cons, Hnil.
  - intros fp it pre post Hl.
    assert (process_line fp it = ([], Some tt)) as Hnil
      by (unfold process_line; by rewrite Hl).
    split; [done|]. induction pre as [|it' pre IH]; simpl.
    + rewrite Hnil. simpl. by destruct (for_each post _).
    + by rewrite IH.
  - intros it hRes res out Hout Hdec. unfold fingerprint. by rewrite Hout, Hdec.
Qed.

Lemma malformed_line_is_skipped_witness :
  amass (Started [json_text "{'name':'b.example.com'}"; "not json";
                  json_text "{'name':'c.example.com'}"])
    = [Send "b.example.com"; Send "c.example.com"; Wait] ∧
  process_line true (demo_iteration "<html>502 Bad Gateway</html>" demo_infra None)
    = ([], Some tt) ∧
  (fingerprint (demo_iteration live_line demo_infra (Some ww_garbage))
     HttpxResult.zero (new_Result demo_now HttpxResult.zero)).2
    = Some (new_Result demo_now HttpxResult.zero).
Proof.
  destruct malformed_line_is_skipped as (Ha & Hh & Hw). split_and!.
  - etransitivity.
    + apply (Ha "not json" [json_text "{'name':'b.example.com'}"]
                [json_text "{'name':'c.example.com'}"]).
      vm_compute. reflexivity.
    + vm_compute. reflexivity.
  - apply (Hh true _ [] []). vm_compute. reflexivity.
  - erewrite Hw; [reflexivity|reflexivity|vm_compute; reflexivity].
Defined.

(** C9. The example line of the specification, with fingerprinting off,
    a valid clock reading and no encode error: one record is emitted,
    with subdomain a.example.com, status_code 200, title T, tech_stack
    [nginx], vulnerabilities [], source recon_pipeline, and a timestamp
    that is a well-formed RFC 3339 date-time. *)
Theorem example_record it :
  line it = spec_line →
  Instant.valid (now it) →
  encode_err it = None →
  ∃ v, stdout_of (trace (process_line false it)) = [v] ∧
       Json.lookup_field "subdomain" v = Some (Json.Str "a.example.com") ∧
       Json.lookup_field "status_code" v = Some (Json.Num "200") ∧
       Json.lookup_field "title" v = Some (Json.Str "T") ∧
       Json.lookup_field "tech_stack" v = Some (Json.Arr [Json.Str "nginx"]) ∧
       Json.lookup_field "vulnerabilities" v = Some (Json.Arr []) ∧
       Json.lookup_field "source" v = Some (Json.Str "recon_pipeline") ∧
       ∃ ts, Json.lookup_field "timestamp" v = Some (Json.Str ts) ∧
             wf_RFC3339 ts = true.
Proof.
  intros Hline Hvalid Herr.
  set (hRes := HttpxResult.mk "a.example.com" "https://a.example.com" 200 "T"
                 (Some ["nginx"]) "").
  assert (unmarshal_HttpxResult (line it) = Some hRes) as Hdec
    by (rewrite Hline; vm_compute; reflexivity).
  destruct (process_line_spec false it hRes Hdec) as (res & Hpl & _ & _ & _ & Hf).
  rewrite (Hf (or_introl eq_refl)) in Hpl. clear res Hf.
  rewrite Hpl. unfold Encode. rewrite Herr. simpl. eexists. split; [done|].
  unfold join. destruct (infraMap it !! HttpxResult.Input hRes) as [[n o]|];
    simpl; (split_and!; [lookup_cases..|]);
    (eexists; split; [lookup_cases|by apply Format_RFC3339_wf]).
Qed.

Lemma example_record_witness :
  ∃ v, stdout_of (trace (process_line false (demo_iteration spec_line ∅ None))) = [v] ∧
       Json.lookup_field "subdomain" v = Some (Json.Str "a.example.com") ∧
       Json.lookup_field "status_code" v = Some (Json.Num "200") ∧
       Json.lookup_field "title" v = Some (Json.Str "T") ∧
       Json.lookup_field "tech_stack" v = Some (Json.Arr [Json.Str "nginx"]) ∧
       Json.lookup_field "vulnerabilities" v = Some (Json.Arr []) ∧
       Json.lookup_field "source" v = Some (Json.Str "recon_pipeline") ∧
       ∃ ts, Json.lookup_field "timestamp" v = Some (Json.Str ts) ∧
             wf_RFC3339 ts = true.
Proof.
  apply (example_record (demo_iteration spec_line ∅ None)).
  - reflexivity.
  - vm_compute. repeat split; intros; discriminate.
  - reflexivity.
Defined.

(** ** Start-up *)

Section startup.
Implicit Types (e : Env).

Lemma errRes_eq bin :
  errRes bin
  = Json.Obj [("error", Json.Str ("Missing binary: " +:+ bin));
              ("message", Json.Str "Please install required tools in PATH")].
Proof. vm_compute. reflexivity. Qed.

Lemma for_each_cons {A} (x : A) (l : list A) (body : A → M unit) :
  for_each (x :: l) body = bind (body x) (λ _, for_each l body).
Proof. done. Qed.

Lemma for_each_check (look : string → bool) (l : list string) :
  for_each l (λ bin, if look bin then ret tt
                     else _ ← emit (Stdout (errRes bin)); exit 1)
  = match head (filter (λ bin, look bin = false) l) with
    | Some bin => ([Stdout (errRes bin); Exit 1], None)
    | None => ([], Some tt)
    end.
Proof.
  induction l as [|bin l IH]; [done|].
  rewrite for_each_cons, IH, filter_cons.
  destruct (look bin) eqn:Hf.
  - rewrite decide_False by done. simpl. by destruct (head _).
  - by rewrite decide_True by done.
Qed.

Lemma checkBinaries_spec e :
  checkBinaries e
  = match head (missing e) with
    | Some bin => ([Stdout (errRes bin); Exit 1], None)
    | None => ([], Some tt)
    end.
Proof. apply for_each_check. Qed.

Lemma head_missing e bin :
  head (missing e) = Some bin →
  bin ∈ bins (useDeep e) (useFingerprint e) ∧ LookPath e bin = false.
Proof.
  intros Hh. assert (bin ∈ missing e) as Hin.
  { destruct (missing e); simplify_eq/=. apply list_elem_of_here. }
  unfold missing in Hin. apply list_elem_of_filter in Hin. naive_solver.
Qed.

Lemma missing_nil e :
  missing e = [] ↔ ∀ bin, bin ∈ bins (useDeep e) (useFingerprint e) → LookPath e bin = true.
Proof.
  unfold missing. split.
  - intros Hnil bin Hb. destruct (LookPath e bin) eqn:Hl; [done|].
    by destruct (filter_nil_not_elem_of _ _ bin Hnil Hl).
  - intros Hall. destruct (filter _ _) as [|bin l] eqn:Hf; [done|].
    assert (bin ∈ bin :: l) as Hin by apply list_elem_of_here.
    rewrite <- Hf in Hin. apply list_elem_of_filter in Hin as [Hl Hb].
    rewrite (Hall bin Hb) in Hl. discriminate.
Qed.

Lemma process_line_returns fp it :
  ∃ t, process_line fp it = (t, Some tt) ∧ spawned_of t = [] ∧ exits_of t = [].
Proof.
  unfold process_line.
  destruct (unmarshal_HttpxResult (line it)) as [hRes|]; [|by eexists].
  destruct (fp && _).
  - destruct (fingerprint_spec it hRes
                (join (infraMap it) hRes (new_Result (now it) hRes)))
      as (res' & -> & _). unfold Encode. destruct (encode_err it); by eexists.
  - unfold Encode. destruct (encode_err it); by eexists.
Qed.

(** The loop neither exits the process nor creates a goroutine. *)
Lemma loop_returns fp (l : list Iteration) :
  ∃ t, for_each l (process_line fp) = (t, Some tt) ∧
       spawned_of t = [] ∧ exits_of t = [].
Proof.
  induction l as [|it l (t & IH & Hg & Hx)]; [by exists []|].
  destruct (process_line_returns fp it) as (t1 & H1 & Hg1 & Hx1).
  exists (t1 ++ t). rewrite for_each_cons, H1, IH. split_and!.
  - done.
  - unfold spawned_of in *. by rewrite omap_app, Hg1, Hg.
  - unfold exits_of in *. by rewrite omap_app, Hx1, Hx.
Qed.

(** The trace of main once the tools are found and httpx runs. *)
Lemma main_started e target rest :
  args e = target :: rest → missing e = [] → httpx_failure e = None →
  ∃ t, for_each (httpxOut e) (process_line (useFingerprint e)) = (t, Some tt) ∧
       spawned_of t = [] ∧
       main e = (Go (Subfinder target)
                   :: (if useDeep e then [Go (Amass target)] else [])
                   ++ [Exec httpx_argv; Exec (nmap_argv target)]
                   ++ (if nmap_Start e is None then [Go NmapWait] else [])
                   ++ [Go Coordinator; Go Feeder] ++ t,
                 if httpx_exits e then Some tt else None).
Proof.
  intros Hargs Hmiss Hfail.
  destruct (loop_returns (useFingerprint e) (httpxOut e)) as (t & Hloop & Hg & _).
  exists t. split_and!; [done..|].
  unfold main, httpx_failure in *. rewrite Hargs, checkBinaries_spec, Hmiss.
  destruct (httpx_StdinPipe e), (httpx_StdoutPipe e), (httpx_Start e); try done.
  rewrite Hloop.
  destruct (useDeep e), (nmap_Start e), (httpx_exits e); simpl;
    by rewrite app_nil_r.
Qed.

End startup.

Section startup_claims.
Implicit Types (e : Env).

Lemma main_missing e target rest bin :
  args e = target :: rest → head (missing e) = Some bin →
  main e = ([Stdout (errRes bin); Exit 1], None).
Proof.
  intros Hargs Hm. unfold main. by rewrite Hargs, checkBinaries_spec, Hm.
Qed.

Lemma main_httpx_failure e target rest msg err :
  args e = target :: rest → missing e = [] → httpx_failure e = Some (msg, err) →
  stdout_of (trace (main e)) = [] ∧
  stderr_of (trace (main e)) = ["Error: " +:+ msg +:+ ": " +:+ err +:+ nl] ∧
  exits_of (trace (main e)) = [1%Z] ∧
  (main e).2 = None.
Proof.
  intros Hargs Hmiss Hfail.
  unfold main, httpx_failure in *. rewrite Hargs, checkBinaries_spec, Hmiss.
  destruct (httpx_StdinPipe e), (httpx_StdoutPipe e), (httpx_Start e);
    simplify_eq/=; by destruct (useDeep e).
Qed.

Lemma stdout_of_main_started e target rest :
  args e = target :: rest → missing e = [] → httpx_failure e = None →
  stdout_of (trace (main e))
  = stdout_of (trace (for_each (httpxOut e) (process_line (useFingerprint e)))) ∧
  exits_of (trace (main e)) = [].
Proof.
  intros Hargs Hmiss Hfail.
  destruct (loop_returns (useFingerprint e) (httpxOut e)) as (t' & Hl' & _ & Hx).
  destruct (main_started e target rest Hargs Hmiss Hfail) as (t & Hl & _ & ->).
  rewrite Hl in Hl'. injection Hl' as ->. rewrite Hl.
  by destruct (useDeep e), (nmap_Start e).
Qed.

End startup_claims.

(** C4 (amended). With a target given: when a required tool is missing
    the whole run is one JSON object on standard output and exit status
    1; when instead a pipe of httpx cannot be created or httpx cannot be
    started, nothing is written to standard output, one line
    Error: <what failed>: <the error> goes to standard error, and the
    process exits with status 1. No source goroutine writes to standard
    output. *)
Theorem fatal_startup_failure e target rest :
  args e = target :: rest →
  (∀ bin, head (missing e) = Some bin →
     main e = ([Stdout (errRes bin); Exit 1], None) ∧
     errRes bin
       = Json.Obj [("error", Json.Str ("Missing binary: " +:+ bin));
                   ("message", Json.Str "Please install required tools in PATH")]) ∧
  (missing e = [] → ∀ msg err, httpx_failure e = Some (msg, err) →
     stdout_of (trace (main e)) = [] ∧
     stderr_of (trace (main e)) = ["Error: " +:+ msg +:+ ": " +:+ err +:+ nl] ∧
     exits_of (trace (main e)) = [1%Z] ∧
     (main e).2 = None) ∧
  (∀ t o, stdout_of (subfinder_trace t o) = [] ∧ stdout_of (amass_trace t o) = []).
Proof.
  intros Hargs. split_and!.
  - intros bin Hm. split; [by eapply main_missing|apply errRes_eq].
  - intros Hmiss msg err Hfail. by eapply main_httpx_failure.
  - intros t o. by destruct o.
Qed.

Lemma fatal_startup_failure_witness :
  main no_nmap_env
    = ([Stdout (Json.Obj [("error", Json.Str "Missing binary: nmap");
                          ("message", Json.Str "Please install required tools in PATH")]);
        Exit 1], None) ∧
  stdout_of (trace (main start_fails_env)) = [] ∧
  stderr_of (trace (main start_fails_env))
    = ["Error: Failed to start httpx: fork/exec /usr/bin/httpx: resource temporarily unavailable"
         +:+ nl] ∧
  exits_of (trace (main start_fails_env)) = [1%Z].
Proof.
  destruct (fatal_startup_failure no_nmap_env "example.com" [] eq_refl)
    as (Hmissing & _ & _).
  destruct (fatal_startup_failure start_fails_env "example.com" [] eq_refl)
    as (_ & Hfail & _).
  split.
  - apply (Hmissing "nmap"). vm_compute. reflexivity.
  - destruct (Hfail eq_refl _ _ eq_refl) as (Hout & Herr & Hexit & _).
    split_and!; [exact Hout|exact Herr|exact Hexit].
Defined.

(** C4 as stated fails when httpx is on the path but cannot be started:
    the process exits with status 1 and standard output stays empty, the
    report going to standard error as plain text. *)
Lemma start_failure_reports_on_stderr :
  missing start_fails_env = [] ∧
  httpx_failure start_fails_env
    = Some ("Failed to start httpx",
            "fork/exec /usr/bin/httpx: resource temporarily unavailable") ∧
  stdout_of (trace (main start_fails_env)) = [] ∧
  stderr_of (trace (main start_fails_env))
    = ["Error: Failed to start httpx: fork/exec /usr/bin/httpx: resource temporarily unavailable"
         +:+ nl] ∧
  exit_status (trace (main start_fails_env)) = 1%Z.
Proof. split_and!; vm_compute; reflexivity. Qed.

(** C5. With a target given, if LookPath fails for some tool the
    configuration requires, the whole run of the program is: one JSON
    object with the members error (Missing binary: and the name of the
    first such tool) and message on standard output, then exit with
    status 1. Nothing goes to standard error, no command is started and
    no goroutine is created. *)
Theorem missing_binary_report e target rest :
  args e = target :: rest →
  (∃ bin, bin ∈ bins (useDeep e) (useFingerprint e) ∧ LookPath e bin = false) →
  ∃ bin, bin ∈ bins (useDeep e) (useFingerprint e) ∧ LookPath e bin = false ∧
    main e
      = ([Stdout (Json.Obj
                    [("error", Json.Str ("Missing binary: " +:+ bin));
                     ("message", Json.Str "Please install required tools in PATH")]);
          Exit 1], None) ∧
    stderr_of (trace (main e)) = [] ∧
    execs_of (trace (main e)) = [] ∧
    spawned_of (trace (main e)) = [] ∧
    exit_status (trace (main e)) = 1%Z.
Proof.
  intros Hargs (bin0 & Hb0 & Hl0).
  destruct (head (missing e)) as [bin|] eqn:Hh.
  - exists bin. destruct (head_missing e bin Hh) as [Hb Hl].
    rewrite (main_missing e target rest bin Hargs Hh), errRes_eq.
    by split_and!.
  - assert (missing e = []) as Hnil by (by destruct (missing e)).
    rewrite missing_nil in Hnil. rewrite (Hnil bin0 Hb0) in Hl0. discriminate.
Qed.

Lemma missing_binary_report_witness :
  ∃ bin, bin ∈ bins false false ∧ LookPath no_nmap_env bin = false ∧
    main no_nmap_env
      = ([Stdout (Json.Obj
                    [("error", Json.Str ("Missing binary: " +:+ bin));
                     ("message", Json.Str "Please install required tools in PATH")]);
          Exit 1], None) ∧
    stderr_of (trace (main no_nmap_env)) = [] ∧
    execs_of (trace (main no_nmap_env)) = [] ∧
    spawned_of (trace (main no_nmap_env)) = [] ∧
    exit_status (trace (main no_nmap_env)) = 1%Z.
Proof.
  apply (missing_binary_report no_nmap_env "example.com" []); [reflexivity|].
  exists "nmap". split; [|reflexivity].
  apply list_elem_of_further, list_elem_of_further, list_elem_of_here.
Defined.

(** C10. Whatever the toggles, nmap is among the tools checkBinaries
    requires, so a run without nmap ends in the missing-binary report.
    In every run that gets past the start-up (tools found, httpx
    running), main calls Start on nmap -F --top-ports 100 <target> -oN
    nmap-scan.txt, right after httpx's; what is written to standard
    output and the exit status are the same whether that Start succeeds
    or fails. *)
Theorem nmap_required_and_started :
  (∀ useDeep useFingerprint, "nmap" ∈ bins useDeep useFingerprint) ∧
  (∀ e target rest, args e = target :: rest → LookPath e "nmap" = false →
     ∃ bin, main e = ([Stdout (errRes bin); Exit 1], None)) ∧
  (∀ e target rest,
     args e = target :: rest → missing e = [] → httpx_failure e = None →
     (∃ pre post, trace (main e)
                  = pre ++ [Exec httpx_argv; Exec (nmap_argv target)] ++ post) ∧
     nmap_argv target
       = ["nmap"; "-F"; "--top-ports"; "100"; target; "-oN"; "nmap-scan.txt"] ∧
     ∀ r, stdout_of (trace (main (with_nmap_Start e r))) = stdout_of (trace (main e)) ∧
          exit_status (trace (main (with_nmap_Start e r))) = exit_status (trace (main e))).
Proof.
  assert (∀ d f, "nmap" ∈ bins d f) as Hbins.
  { intros d f. unfold bins. destruct d, f; simpl;
      apply list_elem_of_further, list_elem_of_further, list_elem_of_here. }
  split_and!.
  - done.
  - intros e target rest Hargs Hl.
    destruct (head (missing e)) as [bin|] eqn:Hh.
    + exists bin. by eapply main_missing.
    + assert (missing e = []) as Hnil by (by destruct (missing e)).
      rewrite missing_nil in Hnil. rewrite (Hnil "nmap" (Hbins _ _)) in Hl.
      discriminate.
  - intros e target rest Hargs Hmiss Hfail. split_and!.
    + destruct (main_started e target rest Hargs Hmiss Hfail) as (t & _ & _ & ->).
      exists (Go (Subfinder target) :: (if useDeep e then [Go (Amass target)] else [])).
      eexists. reflexivity.
    + done.
    + intros r.
      destruct (stdout_of_main_started e target rest Hargs Hmiss Hfail) as [-> Hx].
      destruct (stdout_of_main_started (with_nmap_Start e r) target rest)
        as [-> Hx']; [done..|].
      split; [done|]. unfold exit_status. by rewrite Hx, Hx'.
Qed.

Lemma nmap_required_and_started_witness :
  "nmap" ∈ bins false false ∧
  (∃ bin, main no_nmap_env = ([Stdout (errRes bin); Exit 1], None)) ∧
  (∃ pre post, trace (main demo_env)
               = pre ++ [Exec httpx_argv; Exec (nmap_argv "example.com")] ++ post) ∧
  stdout_of (trace (main (with_nmap_Start demo_env (Some "exec: not started"))))
    = stdout_of (trace (main demo_env)).
Proof.
  destruct nmap_required_and_started as (Hbins & Hreq & Hrun).
  destruct (Hrun demo_env "example.com" [] eq_refl eq_refl eq_refl)
    as (Htrace & _ & Hout).
  split_and!.
  - apply Hbins.
  - apply (Hreq no_nmap_env "example.com" []); reflexivity.
  - exact Htrace.
  - apply Hout.
Defined.

(** * Further properties of the code *)

(** ** The fan-in: waiting for the tools, provenance, order *)

Section fan_in_more.
Implicit Types (srcs : list (option (list action))) (s : State).



Lemma lookup_insert_before_wait srcs i j o' acts :
  srcs !! i = Some (Some acts) → Wait ∈ acts →
  (j = i → ∃ acts', o' = Some acts' ∧ Wait ∈ acts') →
  ∃ acts', <[j := o']> srcs !! i = Some (Some acts') ∧ Wait ∈ acts'.
Proof.
  intros Hi Hw Hj. destruct (decide (j = i)) as [->|Hne].
  - destruct (Hj eq_refl) as (acts' & -> & Hw'). exists acts'. split; [|done].
    apply list_lookup_insert_eq. by eapply lookup_lt_Some.
  - exists acts. by rewrite list_lookup_insert_ne.
Qed.

Lemma before_wait_init progs i p :
  progs !! i = Some p → Wait ∈ p → before_wait i (init progs).
Proof.
  intros Hi Hw. exists p. split; [|done]. simpl. by rewrite list_lookup_fmap, Hi.
Qed.

(** Only the exit of its tool takes a source past its cmd.Wait(). *)
Lemma before_wait_step i l s s' :
  step l s = Next s' → l ≠ Exits i → before_wait i s → before_wait i s'.
Proof.
  destruct s as [srcs wg ch cl inf sn hin hcl]. intros Hs Hl (acts & Hi & Hw).
  simpl in Hi. unfold before_wait.
  destruct l as [j| | |j]; simpl in Hs.
  - destruct (srcs !! j) as [[[|[sub|name v|] rest]|]|] eqn:Hj; try discriminate.
    + destruct wg; [discriminate|]. injection Hs as <-. simpl.
      eapply lookup_insert_before_wait; [done..|]. intros ->.
      rewrite Hj in Hi. injection Hi as <-. by apply elem_of_nil in Hw.
    + destruct cl; [discriminate|]. case_decide; [|discriminate].
      injection Hs as <-. simpl.
      eapply lookup_insert_before_wait; [done..|]. intros ->.
      rewrite Hj in Hi. injection Hi as <-. exists rest. split; [done|].
      by apply elem_of_cons in Hw as [[=]|?].
    + injection Hs as <-. simpl.
      eapply lookup_insert_before_wait; [done..|]. intros ->.
      rewrite Hj in Hi. injection Hi as <-. exists rest. split; [done|].
      by apply elem_of_cons in Hw as [[=]|?].
  - destruct cl; [discriminate|]. destruct wg; [|discriminate].
    injection Hs as <-. by exists acts.
  - destruct hcl; [discriminate|]. destruct ch as [|sub rest].
    + destruct cl; [|discriminate]. injection Hs as <-. by exists acts.
    + case_bool_decide; injection Hs as <-; by exists acts.
  - destruct (srcs !! j) as [[[|[sub|name v|] rest]|]|] eqn:Hj; try discriminate.
    injection Hs as <-. simpl.
    eapply lookup_insert_before_wait; [done..|]. intros ->. by destruct Hl.
Qed.

Lemma before_wait_run i ls : ∀ s s',
  run ls s = Some s' → Exits i ∉ ls → before_wait i s → before_wait i s'.
Proof.
  induction ls as [|l ls IH]; intros s s'; simpl.
  - by intros [= <-].
  - destruct (step l s) as [| |s1] eqn:Hs; try discriminate.
    intros Hr Hl Hw. apply not_elem_of_cons in Hl as [Hl Hls].
    eapply IH; [done..|]. eapply before_wait_step; eauto.
Qed.

End fan_in_more.

(** X1. A source goroutine runs its deferred wgDiscovery.Done() only
    when its cmd.Wait() has returned, so a tool that was started and
    does not exit keeps the pipeline open: in every schedule without the
    exit of that tool its goroutine has not returned, the counter of the
    wait group is positive, the channel is not closed and httpx's stdin
    is not closed. Every goroutine whose tool was started waits in this
    way, and one whose tool could not be started does not. *)
Theorem stdin_stays_open_while_tool_runs progs ls s i p :
  run ls (init progs) = Some s →
  progs !! i = Some p → Wait ∈ p → Exits i ∉ ls →
  before_wait i s ∧ 0 < wgDiscovery s ∧
  closed s = false ∧ httpxIn_closed s = false ∧
  (∀ lines, Wait ∈ subfinder (Started lines) ∧ Wait ∈ amass (Started lines)) ∧
  (∀ err, subfinder (PipeError err) = [] ∧ subfinder (StartError err) = [] ∧
          amass (PipeError err) = [] ∧ amass (StartError err) = []).
Proof.
  intros Hrun Hi Hw Hl. pose proof (reachable_Inv _ _ _ Hrun) as HI.
  assert (before_wait i s) as Hb.
  { eapply before_wait_run; [done..|]. by eapply before_wait_init. }
  assert (0 < wgDiscovery s) as Hwg.
  { destruct Hb as (acts & Hs & _). rewrite (inv_wg _ _ HI).
    destruct (insert_split _ _ _ Hs) as (pre & post & -> & _).
    rewrite running_app, running_cons. lia. }
  assert (closed s = false) as Hcl.
  { destruct (closed s) eqn:Hc; [|done].
    pose proof (inv_closed _ _ HI Hc). lia. }
  split_and!; try done.
  - destruct (httpxIn_closed s) eqn:Hc; [|done].
    destruct (inv_eof _ _ HI Hc) as [Hc' _]. congruence.
  - intros lines. unfold subfinder, amass. rewrite !elem_of_app.
    split; right; apply list_elem_of_here.
Qed.

Lemma stdin_stays_open_while_tool_runs_witness :
  ∃ s, run [Source 0; Source 0; Source 0; Feed; Feed; Feed]
         (init (discovery false demo_subfinder demo_amass)) = Some s ∧
       httpxIn s = ["a.example.com"; "b.example.com"] ∧
       step (Source 0) s = Blocked ∧ step Coord s = Blocked ∧
       step Feed s = Blocked ∧
       0 < wgDiscovery s ∧ closed s = false ∧ httpxIn_closed s = false.
Proof.
  eexists. split; [vm_compute; reflexivity|].
  split; [reflexivity|]. split; [reflexivity|]. split; [reflexivity|].
  split; [reflexivity|].
  destruct (stdin_stays_open_while_tool_runs
              (discovery false demo_subfinder demo_amass)
              [Source 0; Source 0; Source 0; Feed; Feed; Feed] _ 0
              (subfinder demo_subfinder) ltac:(vm_compute; reflexivity))
    as (_ & Hwg & Hcl & Hc & _).
  - reflexivity.
  - apply list_elem_of_further, list_elem_of_further, list_elem_of_further,
      list_elem_of_here.
  - rewrite !not_elem_of_cons. split_and!; try discriminate. apply not_elem_of_nil.
  - split_and!; [exact Hwg|exact Hcl|exact Hc].
Defined.

Section fan_in_bounds.
Implicit Types (srcs : list (option (list action))) (s : State).

Lemma from_progs_init progs : from_progs progs (Some <$> progs).
Proof.
  intros acts a Hacts Ha. apply list_elem_of_fmap in Hacts as (p & [= ->] & Hp).
  by exists p.
Qed.

Lemma from_progs_insert progs srcs i a rest o' :
  from_progs progs srcs → srcs !! i = Some (Some (a :: rest)) →
  o' = None ∨ o' = Some rest → from_progs progs (<[i := o']> srcs).
Proof.
  intros Hfp Hi Ho' acts b Hacts Hb.
  destruct (insert_split _ _ _ Hi) as (pre & post & -> & Hins).
  rewrite Hins in Hacts. rewrite elem_of_app, elem_of_cons in Hacts.
  destruct Hacts as [Hacts|[Hacts|Hacts]].
  - apply (Hfp acts b); [|done]. rewrite elem_of_app. by left.
  - destruct Ho' as [->| ->]; [done|]. injection Hacts as ->.
    apply (Hfp (a :: rest) b); [|by apply list_elem_of_further].
    rewrite elem_of_app, elem_of_cons. auto.
  - apply (Hfp acts b); [|done]. rewrite elem_of_app, elem_of_cons. auto.
Qed.

Lemma provenance_step progs l s s' :
  step l s = Next s' →
  from_progs progs (sources s) ∧
  (∀ k v, infra s !! k = Some v → ∃ p, p ∈ progs ∧ Put k v ∈ p) →
  from_progs progs (sources s') ∧
  (∀ k v, infra s' !! k = Some v → ∃ p, p ∈ progs ∧ Put k v ∈ p).
Proof.
  destruct s as [srcs wg ch cl inf sn hin hcl].
  destruct l as [i| | |i]; simpl.
  - destruct (srcs !! i) as [[[|[sub|name v|] rest]|]|] eqn:Hi; try discriminate.
    + destruct wg; [discriminate|]. intros [= <-] [Hfp Hinf]. simpl. split; [|done].
      intros acts b Hacts Hb.
      destruct (insert_split _ _ _ Hi) as (pre & post & -> & Hins).
      rewrite Hins in Hacts. rewrite elem_of_app, elem_of_cons in Hacts.
      apply (Hfp acts b); [|done]. rewrite elem_of_app, elem_of_cons.
      naive_solver.
    + destruct cl; [discriminate|]. case_decide; [|discriminate].
      intros [= <-] [Hfp Hinf]. simpl. split; [|done].
      eapply from_progs_insert; eauto.
    + intros [= <-] [Hfp Hinf]. simpl. split.
      * eapply from_progs_insert; eauto.
      * intros k w. rewrite lookup_insert. case_decide as Hk; [|by apply Hinf].
        intros [= <-]. subst k. apply (Hfp (Put name v :: rest)).
        -- by eapply list_elem_of_lookup_2.
        -- apply list_elem_of_here.
  - destruct cl; [discriminate|]. destruct wg; [|discriminate]. by intros [= <-].
  - destruct hcl; [discriminate|]. destruct ch as [|sub rest].
    + destruct cl; [|discriminate]. by intros [= <-].
    + case_bool_decide; by intros [= <-].
  - destruct (srcs !! i) as [[[|[sub|name v|] rest]|]|] eqn:Hi; try discriminate.
    intros [= <-] [Hfp Hinf]. simpl. split; [|done].
    eapply from_progs_insert; eauto.
Qed.

Lemma provenance_run progs ls : ∀ s s',
  run ls s = Some s' →
  from_progs progs (sources s) ∧
  (∀ k v, infra s !! k = Some v → ∃ p, p ∈ progs ∧ Put k v ∈ p) →
  from_progs progs (sources s') ∧
  (∀ k v, infra s' !! k = Some v → ∃ p, p ∈ progs ∧ Put k v ∈ p).
Proof.
  induction ls as [|l ls IH]; intros s s'; simpl.
  - by intros [= <-].
  - destruct (step l s) as [| |s1] eqn:Hs; try discriminate.
    intros Hr HI. eapply IH; [done|]. by eapply provenance_step.
Qed.

End fan_in_bounds.

(** X3. Every entry of the infrastructure map was written by a source
    goroutine: it is a Put of some source's program. Subfinder writes
    none, so without -deep the map stays empty and no record can carry
    asn or org. *)
Theorem infra_written_by_sources :
  (∀ progs ls s k v, run ls (init progs) = Some s → infra s !! k = Some v →
     ∃ p, p ∈ progs ∧ Put k v ∈ p) ∧
  (∀ sf am ls s, run ls (init (discovery false sf am)) = Some s → infra s = ∅) ∧
  (∀ hRes res, join ∅ hRes res = res).
Proof.
  assert (∀ progs ls s k v, run ls (init progs) = Some s → infra s !! k = Some v →
            ∃ p, p ∈ progs ∧ Put k v ∈ p) as Hprov.
  { intros progs ls s k v Hrun.
    apply (provenance_run progs ls (init progs) s Hrun). split.
    - apply from_progs_init.
    - intros k' v'. simpl. by rewrite lookup_empty. }
  split_and!; [done| |done].
  intros sf am ls s Hrun. apply map_empty. intros k.
  destruct (infra s !! k) as [v|] eqn:Hk; [|done].
  destruct (Hprov _ _ _ _ _ Hrun Hk) as (p & Hp & Hput).
  apply list_elem_of_singleton in Hp as ->.
  destruct sf as [| |lines]; simpl in Hput; try by apply elem_of_nil in Hput.
  apply elem_of_app in Hput as [Hput|Hput].
  - apply list_elem_of_fmap in Hput as (? & [=] & _).
  - by apply list_elem_of_singleton in Hput.
Qed.

Lemma infra_written_by_sources_witness :
  ∃ s, run demo_schedule (init (discovery true demo_subfinder demo_amass)) = Some s ∧
       infra s !! "b.example.com" = Some (Infrastructure.mk 13335 "CLOUDFLARENET") ∧
       ∃ p, p ∈ discovery true demo_subfinder demo_amass ∧
            Put "b.example.com" (Infrastructure.mk 13335 "CLOUDFLARENET") ∈ p.
Proof.
  destruct infra_written_by_sources as (Hprov & _ & _).
  eexists. split; [vm_compute; reflexivity|]. split; [vm_compute; reflexivity|].
  eapply (Hprov _ demo_schedule); vm_compute; reflexivity.
Defined.

(** X4. An entry of the infrastructure map, once stored, is there for
    every later lookup: nothing deletes from the map. *)
Theorem infra_entry_persists progs ls1 ls2 s1 s2 k :
  run ls1 (init progs) = Some s1 → run ls2 s1 = Some s2 →
  is_Some (infra s1 !! k) → is_Some (infra s2 !! k).
Proof. intros _ Hrun. by apply infra_kept with (ls := ls2). Qed.

Lemma infra_entry_persists_witness :
  ∃ s1 s2,
    run [Source 1; Source 1] (init (discovery true demo_subfinder demo_amass)) = Some s1 ∧
    run [Source 0; Feed; Feed; Source 0] s1 = Some s2 ∧
    is_Some (infra s2 !! "b.example.com").
Proof.
  eexists _, _. split; [vm_compute; reflexivity|]. split; [vm_compute; reflexivity|].
  eapply (infra_entry_persists (discovery true demo_subfinder demo_amass)
            [Source 1; Source 1] [Source 0; Feed; Feed; Source 0]).
  - vm_compute. reflexivity.
  - vm_compute. reflexivity.
  - vm_compute. eauto.
Defined.

Section fan_in_order.
Implicit Types (srcs : list (option (list action))) (s : State).

Lemma in_order_init p : in_order p (init [p]).
Proof.
  split; [by eexists|]. simpl.
  change (pending [Some p]) with (sends p ++ []). by rewrite app_nil_r.
Qed.

Lemma in_order_step p l s s' : step l s = Next s' → in_order p s → in_order p s'.
Proof.
  destruct s as [srcs wg ch cl inf sn hin hcl]. intros Hs [[o Ho] Hord].
  simpl in *. subst srcs. destruct l as [i| | |i]; simpl in Hs.
  - destruct i as [|i]; simpl in Hs; [|discriminate].
    destruct o as [[|[sub|name v|] rest]|]; try discriminate.
    + destruct wg; [discriminate|]. injection Hs as <-. by split; [eexists|].
    + destruct cl; [discriminate|]. case_decide; [|discriminate].
      injection Hs as <-. split; [by eexists|]. simpl.
      rewrite <- Hord, <- app_assoc. done.
    + injection Hs as <-. by split; [eexists|].
  - destruct cl; [discriminate|]. destruct wg; [|discriminate].
    injection Hs as <-. by split; [eexists|].
  - destruct hcl; [discriminate|]. destruct ch as [|sub rest].
    + destruct cl; [|discriminate]. injection Hs as <-. by split; [eexists|].
    + simpl in Hord. case_bool_decide; injection Hs as <-;
        (split; [by eexists|]); simpl; [done|].
      by rewrite <- app_assoc.
  - destruct i as [|i]; simpl in Hs; [|discriminate].
    destruct o as [[|[sub|name v|] rest]|]; try discriminate.
    injection Hs as <-. by split; [eexists|].
Qed.

Lemma in_order_run p ls : ∀ s s', run ls s = Some s' → in_order p s → in_order p s'.
Proof.
  induction ls as [|l ls IH]; intros s s'; simpl.
  - by intros [= <-].
  - destruct (step l s) as [| |s1] eqn:Hs; try discriminate.
    intros Hr HI. eapply IH; [done|]. by eapply in_order_step.
Qed.

Lemma first_occurrences_sublist l : ∀ sn, first_occurrences_from sn l `sublist_of` l.
Proof.
  induction l as [|x l IH]; intros sn; simpl; [done|].
  case_bool_decide; [by apply sublist_cons|by apply sublist_skip].
Qed.

Lemma first_occurrences_elem l : ∀ sn x,
  x ∈ first_occurrences_from sn l ↔ x ∈ l ∧ x ∉ sn.
Proof.
  induction l as [|y l IH]; intros sn x; simpl.
  - rewrite elem_of_nil. naive_solver.
  - case_bool_decide as Hy.
    + rewrite IH, elem_of_cons. naive_solver.
    + rewrite !elem_of_cons, IH, elem_of_union, elem_of_singleton.
      destruct (decide (x = y)); naive_solver.
Qed.

End fan_in_order.

(** X5. Without -deep the only source is subfinder, and httpx is fed
    the lines the scanner yields of subfinder's output, in the order
    subfinder printed them, each at its first occurrence: at any moment
    what has been written is a prefix of that sequence, and when stdin
    is closed it is all of it. The scanner yields the lines subfinder
    printed, without their carriage return, up to the first line of
    65536 bytes or more; when no line is that long, httpx is fed the
    first occurrences of all the lines subfinder printed. *)
Theorem subfinder_order_kept out am ls s :
  run ls (init (discovery false (scanned (Prints out)) am)) = Some s →
  let fed := first_occurrences_from ∅ (Scan MaxScanTokenSize out) in
  httpxIn s `prefix_of` fed ∧
  fed `sublist_of` (dropCR <$> lines_of out) ∧
  (∀ x, x ∈ fed ↔ x ∈ Scan MaxScanTokenSize out) ∧
  (httpxIn_closed s = true → httpxIn s = fed) ∧
  ((∀ l, l ∈ lines_of out → (N.of_nat (String.length l) < MaxScanTokenSize)%N) →
   fed = first_occurrences_from ∅ (dropCR <$> lines_of out)).
Proof.
  intros Hrun fed. pose proof (reachable_Inv _ _ _ Hrun) as HI.
  destruct (in_order_run (subfinder (scanned (Prints out))) ls _ s Hrun
              (in_order_init _)) as [_ Hord].
  cbn [scanned] in Hord. rewrite sends_subfinder in Hord. fold fed in Hord.
  split_and!.
  - eexists. by rewrite Hord.
  - etransitivity; [apply first_occurrences_sublist|].
    destruct (tokens_prefix MaxScanTokenSize (lines_of out)) as [k ->].
    by apply sublist_inserts_r.
  - intros x. unfold fed. rewrite first_occurrences_elem. set_solver.
  - intros Hc. destruct (inv_eof _ _ HI Hc) as [Hcl Hch].
    rewrite Hch, pending_none in Hord.
    + simpl in Hord. by rewrite app_nil_r in Hord.
    + apply running_0. rewrite <- (inv_wg _ _ HI). by apply (inv_closed _ _ HI).
  - intros Hshort. unfold fed, Scan. by rewrite tokens_all.
Qed.

Lemma subfinder_order_kept_witness :
  ∃ s, run [Source 0; Source 0; Feed; Source 0; Exits 0; Source 0; Coord;
            Feed; Feed; Feed]
         (init (discovery false (scanned demo_subfinder_tool) demo_amass)) = Some s ∧
       httpxIn_closed s = true ∧
       httpxIn s = ["a.example.com"; "b.example.com"].
Proof.
  eexists. split; [vm_compute; reflexivity|]. split; [reflexivity|].
  destruct (subfinder_order_kept
              ("a.example.com" +:+ nl +:+ "b.example.com" +:+ nl
                 +:+ "a.example.com" +:+ nl) demo_amass
              [Source 0; Source 0; Feed; Source 0; Exits 0; Source 0; Coord;
               Feed; Feed; Feed] _ ltac:(vm_compute; reflexivity))
    as (_ & _ & _ & Hall & _).
  rewrite Hall; [|reflexivity]. vm_compute. reflexivity.
Defined.



(** ** The loop and main: order, exit, diagnostics *)

Section loop_more.
Implicit Types (it : Iteration) (hRes : HttpxResult) (res : Result).

Lemma loop_trace fp (l : list Iteration) :
  for_each l (process_line fp)
  = (l ≫= λ it, trace (process_line fp it), Some tt).
Proof.
  induction l as [|it l IH]; [done|].
  destruct (process_line_returns fp it) as (t1 & H1 & _).
  rewrite for_each_cons, IH, bind_cons. unfold trace. by rewrite H1.
Qed.

Lemma omap_bind_events {B} (f : event → option B) (l : list Iteration)
    (g : Iteration → list event) :
  omap f (l ≫= g) = l ≫= λ it, omap f (g it).
Proof.
  induction l as [|it l IH]; [done|]. by rewrite !bind_cons, omap_app, IH.
Qed.

Lemma process_line_one_record fp it :
  length (stdout_of (trace (process_line fp it))) ≤ 1 ∧
  length (execs_of (trace (process_line fp it))) ≤ 1 ∧
  (∀ a, a ∈ execs_of (trace (process_line fp it)) →
        fp = true ∧ ∃ url, a = whatweb_argv url).
Proof.
  unfold process_line.
  destruct (unmarshal_HttpxResult (line it)) as [hRes|].
  2: { simpl. split_and!; [lia..|]. intros a Ha. by apply elem_of_nil in Ha. }
  destruct (fp && _) eqn:Hlive.
  - apply andb_true_iff in Hlive as [-> _].
    destruct (fingerprint_spec it hRes
                (join (infraMap it) hRes (new_Result (now it) hRes)))
      as (res' & -> & _). unfold Encode.
    destruct (encode_err it); simpl; (split_and!; [lia..|]);
      intros a ->%list_elem_of_singleton; eauto.
  - unfold Encode. destruct (encode_err it); simpl; (split_and!; [lia..|]);
      intros a Ha; by apply elem_of_nil in Ha.
Qed.

Lemma length_bind_le {A B} (f : A → list B) (l : list A) n :
  (∀ x, length (f x) ≤ n) → length (l ≫= f) ≤ length l * n.
Proof.
  intros Hf. induction l as [|x l IH]; [done|].
  rewrite bind_cons, length_app. specialize (Hf x). simpl. lia.
Qed.

End loop_more.

(** X8. The records come out in the order of httpx's lines: what the
    loop writes to standard output is, line after line, what each line
    alone makes it write, and that is at most one record per line. *)
Theorem records_in_line_order fp (l : list Iteration) :
  stdout_of (trace (for_each l (process_line fp)))
    = l ≫= (λ it, stdout_of (trace (process_line fp it))) ∧
  (∀ l1 l2, stdout_of (trace (for_each (l1 ++ l2) (process_line fp)))
            = stdout_of (trace (for_each l1 (process_line fp)))
              ++ stdout_of (trace (for_each l2 (process_line fp)))) ∧
  length (stdout_of (trace (for_each l (process_line fp)))) ≤ length l.
Proof.
  assert (∀ l, stdout_of (trace (for_each l (process_line fp)))
               = l ≫= (λ it, stdout_of (trace (process_line fp it)))) as Hall.
  { intros l'. rewrite loop_trace. apply omap_bind_events. }
  split_and!.
  - apply Hall.
  - intros l1 l2. by rewrite !Hall, bind_app.
  - rewrite Hall. etransitivity.
    + apply (length_bind_le _ _ 1). intros it. apply process_line_one_record.
    + lia.
Qed.

(** X9. The loop starts no command but whatweb, at most one per line of
    httpx, and none at all without -fingerprint. *)
Theorem loop_runs_only_whatweb fp (l : list Iteration) :
  (∀ a, a ∈ execs_of (trace (for_each l (process_line fp))) →
        fp = true ∧ ∃ url, a = whatweb_argv url) ∧
  length (execs_of (trace (for_each l (process_line fp)))) ≤ length l ∧
  execs_of (trace (for_each l (process_line false))) = [].
Proof.
  assert (∀ fp', execs_of (trace (for_each l (process_line fp')))
                 = l ≫= (λ it, execs_of (trace (process_line fp' it)))) as Hall.
  { intros fp'. rewrite loop_trace. apply omap_bind_events. }
  split_and!.
  - intros a. rewrite Hall, list_elem_of_bind. intros (it & Ha & _).
    by apply (process_line_one_record fp it).
  - rewrite Hall. etransitivity.
    + apply (length_bind_le _ _ 1). intros it. apply process_line_one_record.
    + lia.
  - rewrite Hall. destruct (l ≫= _) as [|a t] eqn:Hl; [done|].
    assert (a ∈ a :: t) as Ha by apply list_elem_of_here.
    rewrite <- Hl in Ha. apply list_elem_of_bind in Ha as (it & Ha & _).
    by destruct (proj2 (proj2 (process_line_one_record false it)) a Ha).
Qed.



(** Without a target argument main prints the usage line on
    standard error and exits with status 1 before it looks for any
    tool: nothing is written to standard output, also when a tool is
    missing. *)
Theorem usage_without_target e :
  args e = [] →
  main e = ([Stderr ("Usage: " +:+ argv0 e
                       +:+ " [-deep] [-fingerprint] <target-domain>" +:+ nl);
             Exit 1], None) ∧
  stdout_of (trace (main e)) = [] ∧
  exit_status (trace (main e)) = 1%Z.
Proof. intros Hargs. unfold main. by rewrite Hargs. Qed.

Lemma usage_without_target_witness :
  stdout_of (trace (main no_target_env)) = [] ∧
  stderr_of (trace (main no_target_env))
    = ["Usage: recon-engine [-deep] [-fingerprint] <target-domain>" +:+ nl] ∧
  exit_status (trace (main no_target_env)) = 1%Z.
Proof.
  destruct (usage_without_target no_target_env eq_refl) as (Hmain & Hout & Hexit).
  split_and!; [exact Hout| |exact Hexit]. by rewrite Hmain.
Defined.

(** X11. checkBinaries asks for subfinder, httpx and nmap, then for
    amass exactly when -deep is set and for whatweb exactly when
    -fingerprint is set; it reports the first tool of that list that
    LookPath does not find (all the tools before it are found) and
    returns silently when all are found. A missing amass or whatweb
    whose toggle is off is not noticed. *)
Theorem checkBinaries_first_missing e :
  (∀ d f, bins d f = ["subfinder"; "httpx"; "nmap"]
                     ++ (if d then ["amass"] else [])
                     ++ (if f then ["whatweb"] else [])) ∧
  (∀ bin, head (missing e) = Some bin →
     checkBinaries e = ([Stdout (errRes bin); Exit 1], None) ∧
     LookPath e bin = false ∧
     ∃ pre post, bins (useDeep e) (useFingerprint e) = pre ++ bin :: post ∧
                 ∀ b, b ∈ pre → LookPath e b = true) ∧
  ((∀ b, b ∈ bins (useDeep e) (useFingerprint e) → LookPath e b = true) →
     checkBinaries e = ([], Some tt)).
Proof.
  split_and!.
  - by intros [] [].
  - intros bin Hh. rewrite checkBinaries_spec, Hh.
    destruct (head_missing e bin Hh) as [_ Hl]. split_and!; [done..|].
    destruct (head_filter_Some _ _ _ Hh) as (pre & post & Hb & Hpre).
    exists pre, post. split; [done|]. intros b Hb'.
    rewrite Forall_forall in Hpre. specialize (Hpre b Hb').
    by destruct (LookPath e b).
  - intros Hall. apply missing_nil in Hall. by rewrite checkBinaries_spec, Hall.
Qed.

Lemma checkBinaries_first_missing_witness :
  checkBinaries no_amass_env = ([], Some tt) ∧
  checkBinaries no_nmap_env = ([Stdout (errRes "nmap"); Exit 1], None).
Proof.
  split.
  - apply (checkBinaries_first_missing no_amass_env).
    intros b Hb. simpl in Hb. rewrite !elem_of_cons, elem_of_nil in Hb.
    destruct Hb as [->|[->|[->|[]]]]; reflexivity.
  - apply (checkBinaries_first_missing no_nmap_env). reflexivity.
Defined.

(** X12. When Encode fails, the record is dropped: nothing goes to
    standard output, the line Error encoding result: <error> goes to
    standard error, and the iteration returns, so the loop goes on with
    the next line. *)
Theorem encode_failure_drops_record fp it hRes err :
  unmarshal_HttpxResult (line it) = Some hRes →
  encode_err it = Some err →
  stdout_of (trace (process_line fp it)) = [] ∧
  stderr_of (trace (process_line fp it))
    = ["Error encoding result: " +:+ err +:+ nl] ∧
  (process_line fp it).2 = Some tt.
Proof.
  intros Hdec Herr.
  destruct (process_line_spec fp it hRes Hdec) as (res & -> & _).
  unfold Encode. rewrite Herr. by destruct (fp && _).
Qed.

Lemma encode_failure_drops_record_witness :
  stdout_of (trace (process_line false failing_encode_iteration)) = [] ∧
  stderr_of (trace (process_line false failing_encode_iteration))
    = ["Error encoding result: write /dev/stdout: no space left on device" +:+ nl] ∧
  (process_line false failing_encode_iteration).2 = Some tt.
Proof.
  apply (encode_failure_drops_record false failing_encode_iteration
           (HttpxResult.mk "a.example.com" "https://a.example.com" 200 "T"
              (Some ["nginx"]) "")).
  - vm_compute. reflexivity.
  - reflexivity.
Defined.

Section tech.
Implicit Types (it : Iteration) (hRes : HttpxResult) (res : Result).

Lemma extractTech_cases hRes :
  extractTech hRes
  = if decide (elems (HttpxResult.Tech hRes) = []) then None
    else Some (elems (HttpxResult.Tech hRes)).
Proof.
  unfold extractTech, append. destruct (elems (HttpxResult.Tech hRes)); by case_decide.
Qed.

Lemma lookup_tech_stack res :
  Json.lookup_field "tech_stack" (encode_Result res)
  = Some (encode_strings (Result.TechStack res)).
Proof. by destruct res. Qed.

Lemma lookup_versions res :
  Json.lookup_field "versions" (encode_Result res)
  = match Result.Versions res with
    | Some m => if decide (size m = 0) then None else Some (encode_string_map m)
    | None => None
    end.
Proof. destruct res as [ts sub sc ti te vu so asn org ve]. simpl. lookup_cases. Qed.

Lemma versions_of_lookup (plugins : gmap string Plugin.t) p :
  versions_of plugins !! p
  = match plugins !! p with
    | Some info =>
        if decide (elems (Plugin.Version info) = []) then None
        else Some (Join (elems (Plugin.Version info)) ", ")
    | None => None
    end.
Proof.
  unfold versions_of. rewrite lookup_omap. destruct (plugins !! p) as [info|]; [|done].
  simpl. unfold len. destruct (elems (Plugin.Version info));
    repeat case_decide; simpl in *; try done; lia.
Qed.

End tech.

(** X13. A line of httpx without detected technologies (no tech member,
    null, or an empty array) gives a record whose tech_stack is the JSON
    null, not an empty array; otherwise tech_stack is the array httpx
    reported, in its order. (Fingerprinting off.) *)
Theorem tech_stack_null_when_empty it hRes :
  unmarshal_HttpxResult (line it) = Some hRes →
  encode_err it = None →
  ∃ v, stdout_of (trace (process_line false it)) = [v] ∧
       Json.lookup_field "tech_stack" v
       = Some (if decide (elems (HttpxResult.Tech hRes) = []) then Json.Null
               else Json.Arr (Json.Str <$> elems (HttpxResult.Tech hRes))).
Proof.
  intros Hdec Herr.
  destruct (process_line_spec false it hRes Hdec) as (res & Hpl & _ & _ & _ & Hf).
  rewrite (Hf (or_introl eq_refl)) in Hpl. rewrite Hpl. unfold Encode. rewrite Herr.
  eexists. split; [done|]. rewrite lookup_tech_stack.
  destruct (join_enrichment (infraMap it) hRes (new_Result (now it) hRes)) as [-> _].
  simpl. rewrite extractTech_cases.
  by destruct (decide (elems (HttpxResult.Tech hRes) = [])).
Qed.

Lemma tech_stack_null_when_empty_witness :
  ∃ v, stdout_of (trace (process_line false
                           (demo_iteration (json_text "{'input':'c.example.com','tech':[]}")
                              ∅ None))) = [v] ∧
       Json.lookup_field "tech_stack" v = Some Json.Null.
Proof.
  apply (tech_stack_null_when_empty
           (demo_iteration (json_text "{'input':'c.example.com','tech':[]}") ∅ None)
           (HttpxResult.mk "c.example.com" "" 0 "" (Some []) "")).
  - vm_compute. reflexivity.
  - reflexivity.
Defined.

(** X14. When whatweb's output decodes to at least one result, only the
    first result is used; the record's versions map has an entry
    exactly for the plugins of that result that report a version, the
    versions joined by a comma and a space; and the versions member is
    left out of the JSON exactly when no plugin reports a version. *)
Theorem versions_of_first_result it hRes res out ww w0 rest :
  wwOut it = Some out →
  unmarshal_WhatWebResults out = Some ww →
  elems ww = w0 :: rest →
  let plugins := WhatWebResult.Plugins w0 in
  ∃ res', (fingerprint it hRes res).2 = Some res' ∧
    Result.Versions res' = Some (versions_of plugins) ∧
    (∀ p, versions_of plugins !! p
          = match plugins !! p with
            | Some info =>
                if decide (elems (Plugin.Version info) = []) then None
                else Some (Join (elems (Plugin.Version info)) ", ")
            | None => None
            end) ∧
    (Json.lookup_field "versions" (encode_Result res') = None ↔
     ∀ p info, plugins !! p = Some info → elems (Plugin.Version info) = []).
Proof.
  intros Hout Hdec Hww plugins. unfold fingerprint. rewrite Hout, Hdec, Hww.
  fold plugins. eexists. split; [reflexivity|]. split; [by destruct res|].
  split; [apply versions_of_lookup|].
  rewrite lookup_versions.
  assert (Result.Versions
            (set_enrichment res (versions_of plugins)
               (merge_plugins (Result.TechStack res) (range it plugins)))
          = Some (versions_of plugins)) as -> by (by destruct res).
  split.
  - case_decide as Hsz; [|done]. intros _ p info Hp.
    apply map_size_empty_iff in Hsz.
    assert (versions_of plugins !! p = None) as Hnone by (by rewrite Hsz, lookup_empty).
    rewrite versions_of_lookup, Hp in Hnone. by case_decide.
  - intros Hall. rewrite decide_True; [done|]. apply map_size_empty_iff, map_empty.
    intros p. rewrite versions_of_lookup.
    destruct (plugins !! p) as [info|] eqn:Hp; [|done].
    by rewrite decide_True by eauto.
Qed.

Lemma versions_of_first_result_witness :
  ∃ res', (fingerprint (demo_iteration live_line demo_infra (Some ww_found))
             HttpxResult.zero (new_Result demo_now HttpxResult.zero)).2 = Some res' ∧
    Result.Versions res'
      = Some {[ "nginx" := "1.18.0"; "PHP" := "8.1, 8" ]}.
Proof.
  destruct (versions_of_first_result
              (demo_iteration live_line demo_infra (Some ww_found))
              HttpxResult.zero (new_Result demo_now HttpxResult.zero)
              ww_found
              (Some [WhatWebResult.mk "http://b.example.com" demo_plugins])
              (WhatWebResult.mk "http://b.example.com" demo_plugins) [])
    as (res' & Hres & Hver & _).
  - reflexivity.
  - vm_compute. reflexivity.
  - reflexivity.
  - exists res'. split; [exact Hres|]. rewrite Hver. vm_compute. reflexivity.
Defined.

(** X15. The enrichment only adds: it leaves timestamp, subdomain,
    status code, title, vulnerabilities, source, asn and org as they
    were, and the tech stack it returns is the old one followed by new
    names, none of which was in it and none twice. *)
Theorem enrichment_only_appends it hRes res :
  ∃ res' added,
    fingerprint it hRes res
      = ([Exec (whatweb_argv (HttpxResult.Url hRes))], Some res') ∧
    same_base res res' ∧
    Result.Asn res' = Result.Asn res ∧ Result.Org res' = Result.Org res ∧
    elems (Result.TechStack res') = elems (Result.TechStack res) ++ added ∧
    NoDup added ∧ (∀ x, x ∈ added → x ∉ elems (Result.TechStack res)).
Proof.
  assert (same_base res res ∧
          Result.Asn res = Result.Asn res ∧ Result.Org res = Result.Org res ∧
          elems (Result.TechStack res) = elems (Result.TechStack res) ++ [] ∧
          NoDup (@nil string) ∧
          (∀ x : string, x ∈ @nil string → x ∉ elems (Result.TechStack res))) as Hsame.
  { rewrite app_nil_r. split_and!; try done; [constructor|].
    intros x Hx. by apply elem_of_nil in Hx. }
  unfold fingerprint.
  destruct (wwOut it) as [out|]; [|by exists res, []].
  destruct (unmarshal_WhatWebResults out) as [ww|]; [|by exists res, []].
  destruct (elems ww) as [|w0 ?]; [by exists res, []|].
  destruct (merge_plugins_appends (range it (WhatWebResult.Plugins w0))
              (Result.TechStack res)) as (added & He & Hnd & Hin & _).
  eexists _, added. split; [reflexivity|].
  destruct res as [ts sub sc ti te vu so asn org ve]. simpl in *.
  split_and!; try done. intros x Hx. by apply Hin in Hx as [_ ?].
Qed.

(** ** The earlier orchestrator *)

Section basic.
Implicit Types (e : Basic.Env) (it : Iteration).

Lemma Basic_checkBinaries_found e :
  Basic.LookPath e "subfinder" = true → Basic.LookPath e "httpx" = true →
  Basic.checkBinaries e = ([], Some tt).
Proof. intros Hs Hh. unfold Basic.checkBinaries. simpl. by rewrite Hs, Hh. Qed.




Lemma Basic_extractTech_elems (l : list Basic.Tech.t) : ∀ acc,
  foldl (λ techs t, append techs [Basic.Tech.Name t]) acc l
  = match l with
    | [] => acc
    | _ => Some (elems acc ++ (Basic.Tech.Name <$> l))
    end.
Proof.
  induction l as [|t l IH]; intros acc; [done|]. simpl. rewrite IH.
  destruct l as [|t' l]; [done|]. simpl. by rewrite <- app_assoc.
Qed.


Lemma foldl_None {A B} (f : A → B → option A) (l : list B) :
  foldl (λ acc x, s ← acc; f s x) None l = None.
Proof. by induction l. Qed.

Lemma to_struct_bad_member {S} (field : string → Json.value → S → option S)
    (old : S) ms1 k x ms2 :
  (∀ s, field (Json.lower k) x s = None) →
  Json.to_struct field old (Json.Obj (ms1 ++ (k, x) :: ms2)) = None.
Proof.
  intros Hbad. unfold Json.to_struct. rewrite foldl_app. simpl.
  destruct (foldl _ (Some old) ms1) as [s|]; simpl.
  - rewrite Hbad.
    induction ms2 as [|[k' x'] ms2 IH]; [done|]. simpl. apply IH.
  - induction ms2 as [|[k' x'] ms2 IH]; [done|]. simpl. apply IH.
Qed.

Lemma to_elems_bad {A} (elem : A → Json.value → option A) (zero : A)
    (l : list Json.value) :
  Exists (λ x, ∀ a, elem a x = None) l →
  ∀ old, Json.to_elems elem zero old l = None.
Proof.
  induction 1 as [x l Hx|x l _ IH]; intros old; simpl.
  - by rewrite Hx.
  - destruct (elem _ x); [|done]. simpl. by rewrite IH.
Qed.

End basic.

(** X16. In the earlier program every start-up error is fatal, also a
    subfinder that cannot be started: nothing is written to standard
    output, one line Error: <what failed>: <the error> goes to standard
    error and the exit status is 1. No command has been started when the
    pipe or httpx's stdout pipe fails; when httpx fails to start,
    subfinder has already been started. *)
Theorem Basic_startup_failure_is_fatal e target rest msg err :
  Basic.args e = target :: rest →
  Basic.LookPath e "subfinder" = true → Basic.LookPath e "httpx" = true →
  Basic.startup_failure e = Some (msg, err) →
  Basic.stdout_of (Basic.main e).1 = [] ∧
  Basic.stderr_of (Basic.main e).1 = ["Error: " +:+ msg +:+ ": " +:+ err +:+ nl] ∧
  Basic.exits_of (Basic.main e).1 = [1%Z] ∧
  (Basic.main e).2 = None ∧
  Basic.execs_of (Basic.main e).1
    = match Basic.Pipe e, Basic.httpx_StdoutPipe e, Basic.subfinder_Start e with
      | None, None, Some _ => [subfinder_argv target]
      | None, None, None => [subfinder_argv target; httpx_argv]
      | _, _, _ => []
      end.
Proof.
  intros Hargs Hs Hh Hfail. unfold Basic.main, Basic.startup_failure in *.
  rewrite Hargs, Basic_checkBinaries_found by done.
  destruct (Basic.Pipe e), (Basic.httpx_StdoutPipe e), (Basic.subfinder_Start e),
    (Basic.httpx_Start e); by simplify_eq/=.
Qed.

Lemma Basic_startup_failure_is_fatal_witness :
  Basic.stdout_of (Basic.main basic_start_fails_env).1 = [] ∧
  Basic.exits_of (Basic.main basic_start_fails_env).1 = [1%Z] ∧
  Basic.execs_of (Basic.main basic_start_fails_env).1
    = [["subfinder"; "-d"; "example.com"; "-silent"]; httpx_argv].
Proof.
  destruct (Basic_startup_failure_is_fatal basic_start_fails_env "example.com" []
              _ _ eq_refl eq_refl eq_refl eq_refl)
    as (Hout & _ & Hexit & _ & Hexec).
  split_and!; [exact Hout|exact Hexit|exact Hexec].
Defined.



(** X18. In the earlier program httpx reports each technology as an
    object with a name, and extractTech collects the names in order: the
    tech stack has as many entries as httpx reported technologies, and
    is nil (JSON null) when it reported none. A decoded line whose
    Encode succeeds is written as one object with exactly the seven
    members timestamp, subdomain, status_code, title, tech_stack,
    vulnerabilities and source. *)
Theorem Basic_record_members it hRes :
  Basic.unmarshal_HttpxResult (line it) = Some hRes →
  encode_err it = None →
  let names := Basic.Tech.Name <$> elems (Basic.HttpxResult.Tech hRes) in
  Basic.extractTech hRes = (if decide (names = []) then None else Some names) ∧
  Basic.process_line it
    = ([Basic.Stdout
          (Json.Obj
             [("timestamp", Json.Str (Format_RFC3339 (now it)));
              ("subdomain", Json.Str (Basic.HttpxResult.Input hRes));
              ("status_code", Json.Num (pretty (Basic.HttpxResult.StatusCode hRes)));
              ("title", Json.Str (Basic.HttpxResult.Title hRes));
              ("tech_stack", if decide (names = []) then Json.Null
                             else Json.Arr (Json.Str <$> names));
              ("vulnerabilities", Json.Arr []);
              ("source", Json.Str "recon_pipeline")])], Some tt).
Proof.
  intros Hdec Herr names.
  assert (Basic.extractTech hRes = (if decide (names = []) then None else Some names))
    as Htech.
  { unfold Basic.extractTech. rewrite Basic_extractTech_elems. unfold names.
    by destruct (elems (Basic.HttpxResult.Tech hRes)). }
  split; [done|]. unfold Basic.process_line. rewrite Hdec, Herr.
  unfold Basic.encode_Result. simpl. rewrite Htech. by case_decide.
Qed.

Lemma Basic_record_members_witness :
  Json.lookup_field "tech_stack"
    (default Json.Null
       (head (Basic.stdout_of (Basic.process_line (demo_iteration basic_line ∅ None)).1)))
  = Some (Json.Arr [Json.Str "nginx"; Json.Str "PHP"]).
Proof.
  destruct (Basic_record_members (demo_iteration basic_line ∅ None)
              (Basic.HttpxResult.mk "a.example.com" "https://a.example.com" 200 "T"
                 (Some [Basic.Tech.mk "nginx"; Basic.Tech.mk "PHP"]) (Some ["nginx"])))
    as [_ ->]; [vm_compute; reflexivity|reflexivity|].
  reflexivity.
Defined.

(** X19. The two programs read different shapes of httpx's tech member
    and each skips the lines of the other shape: the earlier program
    fails to decode an object whose tech array holds a string, the later
    one an object whose tech array holds an object. *)
Theorem tech_shapes_are_incompatible k (l : list Json.value) ms1 ms2 :
  Json.lower k = "tech" →
  ((∃ s, Json.Str s ∈ l) →
     Json.to_struct Basic.HttpxResult_field Basic.HttpxResult.zero
       (Json.Obj (ms1 ++ (k, Json.Arr l) :: ms2)) = None) ∧
  ((∃ o, Json.Obj o ∈ l) →
     Json.to_struct HttpxResult_field HttpxResult.zero
       (Json.Obj (ms1 ++ (k, Json.Arr l) :: ms2)) = None).
Proof.
  intros Hk. split.
  - intros [s Hs]. apply to_struct_bad_member. intros h. rewrite Hk.
    destruct h as [i u c t te w]. simpl.
    rewrite to_elems_bad; [done|]. apply Exists_exists. by exists (Json.Str s).
  - intros [o Ho]. apply to_struct_bad_member. intros h. rewrite Hk.
    destruct h as [i u c t te w]. simpl.
    rewrite to_elems_bad; [done|]. apply Exists_exists. by exists (Json.Obj o).
Qed.

Lemma tech_shapes_are_incompatible_witness :
  Basic.process_line (demo_iteration spec_line ∅ None) = ([], Some tt) ∧
  process_line false (demo_iteration basic_line ∅ None) = ([], Some tt).
Proof.
  assert (Basic.unmarshal_HttpxResult spec_line = None) as H1.
  { unfold Basic.unmarshal_HttpxResult.
    assert (Json.parse spec_line
            = Some (Json.Obj ([("input", Json.Str "a.example.com");
                               ("url", Json.Str "https://a.example.com");
                               ("status_code", Json.Num "200");
                               ("title", Json.Str "T")]
                              ++ ("tech", Json.Arr [Json.Str "nginx"]) :: []))) as ->
      by (vm_compute; reflexivity).
    apply (tech_shapes_are_incompatible "tech"); [reflexivity|].
    exists "nginx". apply list_elem_of_here. }
  assert (unmarshal_HttpxResult basic_line = None) as H2
    by (vm_compute; reflexivity).
  split.
  - unfold Basic.process_line. cbn [line demo_iteration]. by rewrite H1.
  - unfold process_line. cbn [line demo_iteration]. by rewrite H2.
Defined.
